(** * TeaEditor: prefab synchronisation and the undo/redo command stack

    A shallow embedding of [Prefab.cpp] ([HierarchyPanel::loadPrefab],
    [HierarchyPanel::updateAllPrefabInstance]) and of [UndoRedo.cpp]
    ([Cmd::CommandManager] and the three concrete commands), followed by the
    properties of the editor's design document that concern them.

    Conventions.  A C++ member function that mutates its object becomes a
    function from the old state to the new one.  The engine around the editor
    (asset manager, rttr reflection, entt registry, rapidjson reader, the
    serializer) is not part of these sources: what the code calls is gathered
    in one interface per file, and every result holds for all of its
    implementations. *)

From stdpp Require Import base option list gmap strings.

(** ** Logging ([TEA_INFO], [TEA_WARNING], [TEA_ERROR])

    A log line is kept as the call that produced it: severity, format string
    (spelled as in the source, escapes included) and the arguments in
    order. *)

Inductive LogLevel : Type := Info | Warning | Error.

Inductive LogArg : Type :=
| arg_string (s : string)
| arg_uuid (u : N)
| arg_float (bits : Z)
| arg_size (n : nat).

Record LogEntry : Type := Log {
  log_level : LogLevel;
  log_format : string;
  log_args : list LogArg
}.

Definition TEA_INFO (fmt : string) (args : list LogArg) : LogEntry := Log Info fmt args.
Definition TEA_WARNING (fmt : string) (args : list LogArg) : LogEntry := Log Warning fmt args.
Definition TEA_ERROR (fmt : string) (args : list LogArg) : LogEntry := Log Error fmt args.

(** ** rapidjson values and documents

    Only the part of the DOM interface that [Prefab.cpp] uses.  An object keeps
    its members in file order; a lookup returns the first member with the
    name.  The synchroniser never looks into a leaf, so a number is kept as
    an integer.  [HasMember] and [operator[]] (here [subscript]) have the
    precondition [IsObject()], and [operator[]] moreover requires the member
    to exist: both are [RAPIDJSON_ASSERT]s, rendered here as the result
    [None]. *)

Module rapidjson.

#[warnings="-register-all"] Inductive Value : Type :=
| kNull
| kFalse
| kTrue
| kNumber (n : Z)
| kString (s : string)
| kArray (elements : list Value)
| kObject (members : list (string * Value)).

Definition IsNull (v : Value) : bool :=
  match v with kNull => true | _ => false end.

Definition IsObject (v : Value) : bool :=
  match v with kObject _ => true | _ => false end.

Fixpoint FindMember (name : string) (members : list (string * Value)) : option Value :=
  match members with
  | [] => None
  | (key, v) :: rest => if bool_decide (key = name) then Some v else FindMember name rest
  end.

Definition HasMember (v : Value) (name : string) : option bool :=
  match v with
  | kObject members => Some (bool_decide (is_Some (FindMember name members)))
  | _ => None
  end.

Definition subscript (v : Value) (name : string) : option Value :=
  match v with
  | kObject members => FindMember name members
  | _ => None
  end.

(** [rapidjson::Document]: a root value together with the result of the
    last parse.  [Document()] is the Null value without error. *)
Record Document : Type := {
  root : Value;
  HasParseError : bool
}.

Definition emptyDocument : Document := {| root := kNull; HasParseError := false |}.

(** [Document::ParseStream].  The grammar is the reader's business: [reader]
    gives the root value of a text, or [None] for a text that is not JSON.
    As in document.h, the root is assigned only when the reader succeeded; a
    document whose parse failed records the error and keeps the value it
    had. *)
Definition ParseStream (reader : string → option Value) (text : string) (doc : Document)
  : Document :=
  match reader text with
  | Some v => {| root := v; HasParseError := false |}
  | None => {| root := root doc; HasParseError := true |}
  end.

End rapidjson.

Import rapidjson.

(** ** A state monad with a log and assertion failure

    [Run S A] threads a state [S] and collects the log lines written.  The
    answer [None] means that an assertion of a library stopped the program;
    the state returned with it is the one reached at that point. *)

Definition Run (S A : Type) : Type := S → option A * S * list LogEntry.

Definition run_ret {S A : Type} (a : A) : Run S A := λ s, (Some a, s, []).

Definition run_bind {S A B : Type} (m : Run S A) (k : A → Run S B) : Run S B :=
  λ s, match m s with
       | (Some a, s', out) => let '(b, s'', out') := k a s' in (b, s'', (out ++ out')%list)
       | (None, s', out) => (None, s', out)
       end.

Definition run_assert {S A : Type} (o : option A) : Run S A := λ s, (o, s, []).

Definition run_get {S : Type} : Run S S := λ s, (Some s, s, []).

Definition run_modify {S : Type} (f : S → S) : Run S unit := λ s, (Some tt, f s, []).

Definition run_log {S : Type} (line : LogEntry) : Run S unit := λ s, (Some tt, s, [line]).

Notation "'let*' x ':=' m 'in' k" := (run_bind m (λ x, k))
  (at level 10, x pattern, m at level 100, k at level 200).
Notation "m ';;;' k" := (run_bind m (λ _, k))
  (at level 100, k at level 200, right associativity).

Fixpoint run_for {S A : Type} (l : list A) (body : A → Run S unit) : Run S unit :=
  match l with
  | [] => run_ret tt
  | a :: rest => body a ;;; run_for rest body
  end.

(** The three parts of what a run gives back. *)
Definition answer {S A : Type} (r : option A * S * list LogEntry) : option A := r.1.1.
Definition state {S A : Type} (r : option A * S * list LogEntry) : S := r.1.2.
Definition logged {S A : Type} (r : option A * S * list LogEntry) : list LogEntry := r.2.

(** ** Prefab.cpp *)

Module TeaEditor.

(** [TeaAsset::AssetHandle]: compared with [==] only. *)
Definition AssetHandle : Type := N.

(** [entt::entity], the key of an entity in the registry. *)
Definition entt_entity : Type := N.

(** [rttr::property] and [rttr::type], as far as the synchroniser reads
    them: [get_name()], [get_type()] and [get_properties()]. *)
Record rttr_property : Type := {
  prop_name : string;
  prop_type : string
}.

Record rttr_type : Type := {
  type_name : string;
  type_properties : list rttr_property
}.

(** Modelled from the spec: an entry of the property-override list of
    [TeaComponents::OverrideComponent] (the struct is not among the sources),
    which records the path [componentName/propertyName] of a property that
    was changed on the instance. *)
Record OverrideProperty : Type := { path : string }.

(** Modelled from the spec: an entry of the component list of the ledger,
    which names a component that the user added or removed on the
    instance. *)
Record OverrideEntry : Type := { componentName : string }.

(** Modelled from the spec: [TeaComponents::OverrideComponent], the override
    ledger of a prefab instance, with the three fields that the synchroniser
    reads. *)
Record OverrideComponent : Type := {
  masterPrefabHandle : AssetHandle;
  components : list OverrideEntry;
  properties : list OverrideProperty
}.

(** A component seen through reflection is the values of its named
    properties; an entity is its components by reflected type name; the
    registry holds the entities by handle. *)
Abbreviation Component variant := (gmap string variant).
Abbreviation Entity variant := (gmap string (gmap string variant)).
Abbreviation Registry variant := (gmap entt_entity (gmap string (gmap string variant))).

(** What [Prefab.cpp] calls and does not define.  [variant] is the content of
    an [rttr::variant]; its inhabitant is the invalid variant.

    - [getSourceFilePath]: [TeaAsset::AssetManager::getSourceFilePath].
    - [ifstream]: [std::ifstream]; the content of the file, [None] when
      [is_open()] is false.
    - [reader]: the JSON reader of rapidjson; the root value of a text, or
      [None] when the text has a syntax error.
    - [getAllComponentTypes]: [TeaComponents::ComponentManager].
    - [defaultComponent]: the default-constructed component that
      [entity.addComponent(name)] attaches.
    - [asOverrideComponent]: the [OverrideComponent] struct behind the
      component registered under that name.
    - [deserializeEachProperty]: [Serialize::deserializeEachProperty], which
      updates the variant it is given from the JSON value.
    - [accepts]: whether [rttr::property::set_value] takes the variant (it
      returns false and writes nothing otherwise). *)
Class Engine (variant : Type) : Type := {
  getSourceFilePath : AssetHandle → string;
  ifstream : string → option string;
  reader : string → option Value;
  getAllComponentTypes : list rttr_type;
  defaultComponent : string → Component variant;
  asOverrideComponent : Component variant → OverrideComponent;
  deserializeEachProperty : Value → variant → string → variant;
  accepts : rttr_property → variant → bool
}.

Section HierarchyPanel.

Context {variant : Type} `{!Inhabited variant} `{!Engine variant}.

(** Modelled from the spec: [btEngine::Entity::hasComponent(name)], the
    string-keyed test (entity.hpp is not among the sources). *)
Definition hasComponent (entity : Entity variant) (typeName : string) : bool :=
  bool_decide (is_Some (entity !! typeName)).

(** Modelled from the spec: [btEngine::Entity::getComponent(name)]; on a
    missing component it gives the invalid variant, here [None]. *)
Definition getComponent (entity : Entity variant) (typeName : string)
  : option (Component variant) :=
  entity !! typeName.

(** Modelled from the spec: [btEngine::Entity::addComponent(name)], which
    attaches the component with default-constructed state. *)
Definition addComponent (typeName : string) (entity : Entity variant) : Entity variant :=
  <[typeName := defaultComponent typeName]> entity.

(** Modelled from the spec: [btEngine::Entity::removeComponent(name)]. *)
Definition removeComponent (typeName : string) (entity : Entity variant) : Entity variant :=
  delete typeName entity.

(** [entity.getComponent<TeaComponents::OverrideComponent>()].  The source
    holds the result by reference, so every use reads the component as it
    is at that moment. *)
Definition overrideComp (entity : Entity variant) : OverrideComponent :=
  asOverrideComponent (default ∅ (entity !! "OverrideComponent")).

(** [prop.get_value(component)] and [prop.set_value(component, v)], where
    [component] is the [rttr::instance] of the component [typeName] of the
    entity. *)
Definition get_value (typeName : string) (prop : rttr_property) (entity : Entity variant)
  : variant :=
  default inhabitant (entity !! typeName ≫= λ component, component !! prop_name prop).

Definition set_value (typeName : string) (prop : rttr_property) (v : variant)
    (entity : Entity variant) : Entity variant :=
  if accepts prop v
  then alter (λ component, <[prop_name prop := v]> component) typeName entity
  else entity.

(** [registry->view<UUIDComponent, OverrideComponent>()]. *)
Definition inView (entity : Entity variant) : bool :=
  hasComponent entity "UUIDComponent" && hasComponent entity "OverrideComponent".

Definition view (registry : Registry variant) : list entt_entity :=
  (map_to_list (filter (λ kv, inView kv.2 = true) registry)).*1.

(** [HierarchyPanel::loadPrefab] (Prefab.cpp, lines 24-45). *)
Definition loadPrefab {S : Type} (prefabPath : string) : Run S Document :=
  match ifstream prefabPath with
  | None =>
      run_log (TEA_INFO "Failed to open prefab file: {0}" [arg_string prefabPath]) ;;;
      run_ret emptyDocument
  | Some content =>
      let prefabDoc := ParseStream reader content emptyDocument in
      (if HasParseError prefabDoc
       then run_log (TEA_INFO "Failed to parse prefab file: {0}" [arg_string prefabPath])
       else run_ret tt) ;;;
      run_ret prefabDoc
  end.

(** The body of the loop over the properties (lines 136-161). *)
Definition syncProperty (typeName : string) (componentData : Value) (prop : rttr_property)
  : Run (Entity variant) unit :=
  let propName := prop_name prop in
  let propertyPath := typeName +:+ "/" +:+ propName in
  if bool_decide (propName = "Scene ID") then run_ret tt else
  if bool_decide (propName = "Parent") then run_ret tt else
  let* entity := run_get in
  let overrideIt :=
    find (λ overrideProp, bool_decide (path overrideProp = propertyPath))
         (properties (overrideComp entity)) in
  match overrideIt with
  | Some _ => run_ret tt
  | None =>
      let* defined := run_assert (HasMember componentData propName) in
      if defined : bool then
        let* propValue := run_assert (subscript componentData propName) in
        let propObj := get_value typeName prop entity in
        let propType := prop_type prop in
        run_modify
          (set_value typeName prop (deserializeEachProperty propValue propObj propType))
      else run_ret tt
  end.

(** Lines 122-162: the property synchronisation of one component type. *)
Definition syncProperties (entityData : Value) (componentType : rttr_type)
  : Run (Entity variant) unit :=
  let typeName := type_name componentType in
  let* inAsset := run_assert (HasMember entityData typeName) in
  if inAsset : bool then
    let* componentData := run_assert (subscript entityData typeName) in
    let* entity := run_get in
    match getComponent entity typeName with
    | None =>
        run_log (TEA_WARNING "Entity does not have component {0}. Skipping."
                             [arg_string typeName])
    | Some _ =>
        run_for (type_properties componentType) (syncProperty typeName componentData)
    end
  else run_ret tt.

(** The body of the loop over the registered component types
    (lines 81-163). *)
Definition syncComponentType (entityData : Value) (componentType : rttr_type)
  : Run (Entity variant) unit :=
  let typeName := type_name componentType in
  if bool_decide (typeName = "Scene ID") then run_ret tt else
  let* existsInPrefabAsset := run_assert (HasMember entityData typeName) in
  let* entity := run_get in
  let existsInPrefabInstance := hasComponent entity typeName in
  let isLocallyAdded :=
    existsb (λ c, bool_decide (componentName c = typeName))
            (components (overrideComp entity)) in
  if existsInPrefabAsset && negb existsInPrefabInstance && negb isLocallyAdded then
    if bool_decide (typeName = "Child") || bool_decide (typeName = "Parent")
    then run_ret tt
    else
      run_modify (addComponent typeName) ;;;
      syncProperties entityData componentType
  else if negb existsInPrefabAsset && existsInPrefabInstance then
    if bool_decide (typeName = "UUIDComponent")
       || bool_decide (typeName = "OverrideComponent")
    then run_ret tt
    else
      (if negb isLocallyAdded
       then run_modify (removeComponent typeName)
       else run_ret tt) ;;;
      syncProperties entityData componentType
  else syncProperties entityData componentType.

(** The body of the loop over the view (lines 64-169). *)
Definition syncEntity (handle : AssetHandle) (prefabPath : string) (prefabDoc : Document)
  : Run (Entity variant) unit :=
  let* entity := run_get in
  if bool_decide (masterPrefabHandle (overrideComp entity) = handle) then
    let* entityData := run_assert (subscript (root prefabDoc) "Entity") in
    if negb (IsObject entityData) then run_ret tt else
    run_for getAllComponentTypes (syncComponentType entityData)
  else
    run_log (TEA_INFO
               "Entity is not a prefab instance of {0}, so skip and check the next entity"
               [arg_string prefabPath]).

(** [btEngine::Entity entity(entityHandle, registry)]: the loop body works
    on the entity stored under the handle. *)
Definition at_entity (entityHandle : entt_entity) (body : Run (Entity variant) unit)
  : Run (Registry variant) unit :=
  λ registry,
    match registry !! entityHandle with
    | Some entity =>
        let '(r, entity', out) := body entity in
        (r, <[entityHandle := entity']> registry, out)
    | None => (Some tt, registry, [])
    end.

(** [HierarchyPanel::updateAllPrefabInstance] (lines 46-170). *)
Definition updateAllPrefabInstance (handle : AssetHandle) : Run (Registry variant) unit :=
  let prefabPath := getSourceFilePath handle in
  let* prefabDoc := loadPrefab prefabPath in
  if IsNull (root prefabDoc) then run_ret tt else
  let* registry := run_get in
  run_for (view registry)
          (λ entityHandle, at_entity entityHandle (syncEntity handle prefabPath prefabDoc)).

(** *** Vocabulary of the statements and proofs

    Membership in the two lists of the ledger, as the loops test it, and
    the effect of the property loop on one component written as a fold:
    [syncedComponent] is what lines 136-161 leave of a component when the
    master entry is an object ([syncProperties_loop] below proves it). *)
Definition overridden (ledger : OverrideComponent) (propertyPath : string) : bool :=
  existsb (λ o, bool_decide (path o = propertyPath)) (properties ledger).

Definition locallyAdded (ledger : OverrideComponent) (typeName : string) : bool :=
  existsb (λ c, bool_decide (componentName c = typeName)) (components ledger).

Definition syncedProperty (ledger : OverrideComponent) (typeName : string)
    (master : list (string * Value)) (component : Component variant) (prop : rttr_property)
  : Component variant :=
  let p := prop_name prop in
  if bool_decide (p = "Scene ID") || bool_decide (p = "Parent")
     || overridden ledger (typeName +:+ "/" +:+ p)
  then component
  else match FindMember p master with
       | None => component
       | Some j =>
           let v := deserializeEachProperty j (default inhabitant (component !! p))
                                            (prop_type prop) in
           if accepts prop v then <[p := v]> component else component
       end.

Definition syncedComponent (ledger : OverrideComponent) (typeName : string)
    (master : list (string * Value)) (props : list rttr_property)
    (component : Component variant) : Component variant :=
  foldl (syncedProperty ledger typeName master) component props.

(** The layout of a master document: every entry of ["Entity"] is an
    object. *)
Definition wellFormed (ms : list (string * Value)) : bool :=
  forallb (λ kv, IsObject kv.2) ms.

End HierarchyPanel.

End TeaEditor.

(** ** The pass on one component type, as a table *)

Section Reconciliation.
Import TeaEditor.
Context {variant : Type} `{!Inhabited variant} `{!Engine variant}.

(** What the step for a component type leaves in the place of that type on
    an instance, written as a function of the ledger, the entries of the
    master (objects, each) and what the instance has in that place: the
    rules of lines 81-163 in one table. *)
Definition syncedSlot (ledger : OverrideComponent) (ms : list (string * Value))
    (ct : rttr_type) (slot : option (Component variant)) : option (Component variant) :=
  let T := type_name ct in
  if bool_decide (T = "Scene ID") then slot else
  match FindMember T ms, slot with
  | Some (kObject pm), Some c =>
      Some (syncedComponent ledger T pm (type_properties ct) c)
  | Some (kObject pm), None =>
      if locallyAdded ledger T || bool_decide (T = "Child") || bool_decide (T = "Parent")
      then None
      else Some (syncedComponent ledger T pm (type_properties ct) (defaultComponent T))
  | Some _, _ => slot
  | None, Some c =>
      if bool_decide (T = "UUIDComponent") || bool_decide (T = "OverrideComponent")
         || locallyAdded ledger T
      then Some c
      else None
  | None, None => None
  end.
End Reconciliation.


(** ** UndoRedo.cpp *)

Module Cmd.

(** The abstract class [Command].  A member function may change the fields
    of the command itself as well as the world, so each one returns both. *)
Class Command (World C : Type) : Type := {
  execute : C → World → C * World;
  undo : C → World → C * World;
  redo : C → World → C * World
}.

(** [CommandManager]: two [std::stack]s, the top first. *)
Module CommandManager.

Record t (C : Type) : Type := {
  undoStack : list C;
  redoStack : list C
}.
Arguments undoStack {C} _.
Arguments redoStack {C} _.

Section Manager.

Context {World C : Type} `{!Command World C}.

(** [while (!redoStack.empty()) redoStack.pop();] *)
Fixpoint pop_all (stack : list C) : list C :=
  match stack with
  | [] => []
  | _ :: rest => pop_all rest
  end.

(** [CommandManager::executeCommand] (lines 22-34). *)
Definition executeCommand (cmd : C) (manager : t C) (world : World) : t C * World :=
  let '(cmd, world) := execute cmd world in
  let undoStack := cmd :: undoStack manager in
  ({| undoStack := undoStack; redoStack := pop_all (redoStack manager) |}, world).

(** [CommandManager::undo] (lines 36-49). *)
Definition undo (manager : t C) (world : World) : t C * World :=
  match undoStack manager with
  | [] => (manager, world)
  | cmd :: rest =>
      let '(cmd, world) := Cmd.undo cmd world in
      ({| undoStack := rest; redoStack := cmd :: redoStack manager |}, world)
  end.

(** [CommandManager::redo] (lines 51-64). *)
Definition redo (manager : t C) (world : World) : t C * World :=
  match redoStack manager with
  | [] => (manager, world)
  | cmd :: rest =>
      let '(cmd, world) := Cmd.redo cmd world in
      ({| undoStack := cmd :: undoStack manager; redoStack := rest |}, world)
  end.

End Manager.

End CommandManager.

(** Commands that do nothing but note, in a world that is the list of the
    calls made so far, which member function was called on which command. *)
Inductive Call (C : Type) : Type :=
| called_execute (c : C)
| called_undo (c : C)
| called_redo (c : C).
Arguments called_execute {C} _.
Arguments called_undo {C} _.
Arguments called_redo {C} _.

Definition recorder (C : Type) : Command (list (Call C)) C := {|
  execute c calls := (c, calls ++ [called_execute c]);
  undo c calls := (c, calls ++ [called_undo c]);
  redo c calls := (c, calls ++ [called_redo c])
|}.

(** *** The world the concrete commands act on *)

Definition UUID : Type := N.
Definition entt_entity : Type := N.

(** [glm::vec3].  The commands only store and copy the three floats, so a
    float is kept as its 32 bits. *)
Definition float : Type := Z.

Module glm.
Record vec3 : Type := { x : float; y : float; z : float }.
End glm.

(** Modelled from the spec: [TeaComponents::Transform] (not among the
    sources), with the three values that [setPosition], [setRotation] and
    [setScale] write. *)
Record Transform : Type := {
  position : glm.vec3;
  rotation : glm.vec3;
  scale : glm.vec3
}.

(** What the commands read of an entity: the identifier in its
    [UUIDComponent] and its transform, if it has one. *)
Record EntityData : Type := {
  uuidComponent : UUID;
  transformComponent : option Transform
}.

(** [rttr::variant], as far as [ChangeMaterialInstanceCommand] looks into
    it: a sequential container of material identifiers, anything else, or
    nothing. *)
Inductive variant : Type :=
| invalid
| sequence (elements : list UUID)
| scalar (bits : Z).

(** [btEngine::Entity]: an entity handle, or the null entity of the default
    constructor. *)
Definition Entity : Type := option entt_entity.

(** The scene ([m_sceneManager] and its registry), the reflected objects
    that an [rttr::instance] can point to, the state of the identifier
    generator, and the log. *)
Record World : Type := {
  registry : gmap entt_entity EntityData;
  objects : gmap N (gmap string variant);
  generator : N;
  logger : list LogEntry
}.

Definition with_registry (f : gmap entt_entity EntityData → gmap entt_entity EntityData)
    (w : World) : World :=
  {| registry := f (registry w); objects := objects w;
     generator := generator w; logger := logger w |}.

Definition with_objects (f : gmap N (gmap string variant) → gmap N (gmap string variant))
    (w : World) : World :=
  {| registry := registry w; objects := f (objects w);
     generator := generator w; logger := logger w |}.

Definition write_log (line : LogEntry) (w : World) : World :=
  {| registry := registry w; objects := objects w;
     generator := generator w; logger := (logger w ++ [line])%list |}.

(** What the scene manager needs from outside: how a fresh identifier is
    drawn from the generator, and the transform a new entity starts with
    (if it has one). *)
Class Scene : Type := {
  generateUUID : N → UUID * N;
  initialTransform : option Transform
}.

Section Commands.

Context `{!Scene}.

(** Modelled from the spec: [sceneManager::createEntityWithUUID(uuid) ->
    Entity] (the scene manager is not among the sources).  The new entity
    carries the identifier it is given and takes a handle that is not in
    use. *)
Definition createEntityWithUUID (uuid : UUID) (w : World) : Entity * World :=
  let handle := fresh (dom (registry w)) in
  let data := {| uuidComponent := uuid; transformComponent := initialTransform |} in
  (Some handle, with_registry (insert handle data) w).

(** Modelled from the spec: [sceneManager::createEntity() -> Entity], a new
    entity under a freshly generated identifier. *)
Definition createEntity (w : World) : Entity * World :=
  let '(uuid, next) := generateUUID (generator w) in
  createEntityWithUUID uuid
    {| registry := registry w; objects := objects w;
       generator := next; logger := logger w |}.

(** Modelled from the spec: [sceneManager::destroyEntity(Entity)]. *)
Definition destroyEntity (entity : Entity) (w : World) : World :=
  match entity with
  | Some handle => with_registry (delete handle) w
  | None => w
  end.

(** Modelled from the spec: [btEngine::Entity::getUUID], the identifier
    held by the entity's [UUIDComponent]. *)
Definition getUUID (entity : Entity) (w : World) : UUID :=
  default 0%N (entity ≫= λ handle, uuidComponent <$> registry w !! handle).

(** *** [CreateEntityCommand] (lines 66-95) *)

Record CreateEntityCommand : Type := {
  create_m_entity : Entity;
  create_m_uuid : UUID
}.

Definition CreateEntityCommand_execute (c : CreateEntityCommand) (w : World)
  : CreateEntityCommand * World :=
  let '(m_entity, w) := createEntity w in
  let m_uuid := getUUID m_entity w in
  ({| create_m_entity := m_entity; create_m_uuid := m_uuid |},
   write_log (TEA_INFO "[CreateEntityCommand] execute() called.\nCreated entity with UUID: {}"
                       [arg_uuid m_uuid]) w).

Definition CreateEntityCommand_undo (c : CreateEntityCommand) (w : World)
  : CreateEntityCommand * World :=
  let w := destroyEntity (create_m_entity c) w in
  (c,
   write_log (TEA_INFO "[CreateEntityCommand] undo() called.\nDestroyed entity with UUID: {}"
                       [arg_uuid (create_m_uuid c)]) w).

Definition CreateEntityCommand_redo (c : CreateEntityCommand) (w : World)
  : CreateEntityCommand * World :=
  let '(m_entity, w) := createEntityWithUUID (create_m_uuid c) w in
  ({| create_m_entity := m_entity; create_m_uuid := create_m_uuid c |},
   write_log (TEA_INFO "[CreateEntityCommand] redo() called.\nRecreated entity with UUID: {}"
                       [arg_uuid (create_m_uuid c)]) w).

(** *** [TransformEntityCommand] (lines 97-161) *)

(** The fields of the class; [m_sceneManager] is the world that the member
    functions are run in. *)
Record TransformEntityCommand : Type := {
  transform_m_entity : Entity;
  m_oldPosition : glm.vec3;
  m_oldRotation : glm.vec3;
  m_oldScale : glm.vec3;
  m_newPosition : glm.vec3;
  m_newRotation : glm.vec3;
  m_newScale : glm.vec3
}.

(** Modelled from the spec: the test
    [m_entity && m_entity.hasComponent<TeaComponents::Transform>()] of
    [applyTransform]; the handle resolves in the registry and the entity
    carries a transform. *)
Definition hasTransform (entity : Entity) (w : World) : bool :=
  match entity ≫= λ handle, registry w !! handle with
  | Some data => bool_decide (is_Some (transformComponent data))
  | None => false
  end.

(** Modelled from the spec: [setPosition], [setRotation] and [setScale] on
    the entity's transform, one after the other. *)
Definition setTransform (pos rot scl : glm.vec3) (data : EntityData) : EntityData :=
  {| uuidComponent := uuidComponent data;
     transformComponent :=
       Some {| position := pos; rotation := rot; scale := scl |} |}.

Definition applyTransform (c : TransformEntityCommand) (pos rot scl : glm.vec3) (w : World)
  : World :=
  if hasTransform (transform_m_entity c) w then
    match transform_m_entity c with
    | Some handle => with_registry (alter (setTransform pos rot scl) handle) w
    | None => w
    end
  else w.

Definition vec3_args (v : glm.vec3) : list LogArg :=
  [arg_float (glm.x v); arg_float (glm.y v); arg_float (glm.z v)].

Definition transform_log (fmt : string) (c : TransformEntityCommand)
    (pos rot scl : glm.vec3) (w : World) : World :=
  write_log (TEA_INFO fmt (arg_uuid (getUUID (transform_m_entity c) w)
                           :: vec3_args pos ++ vec3_args rot ++ vec3_args scl)%list) w.

Definition TransformEntityCommand_execute (c : TransformEntityCommand) (w : World)
  : TransformEntityCommand * World :=
  let w := applyTransform c (m_newPosition c) (m_newRotation c) (m_newScale c) w in
  (c, transform_log
        "[TransformEntityCommand] execute() called.\nEntity UUID: {}\nApplied New Transform:\n   Position: ({}, {}, {})\n   Rotation: ({}, {}, {})\n   Scale:    ({}, {}, {})"
        c (m_newPosition c) (m_newRotation c) (m_newScale c) w).

Definition TransformEntityCommand_undo (c : TransformEntityCommand) (w : World)
  : TransformEntityCommand * World :=
  let w := applyTransform c (m_oldPosition c) (m_oldRotation c) (m_oldScale c) w in
  (c, transform_log
        "[TransformEntityCommand] undo() called.\nEntity UUID: {}\nReverted to Old Transform:\n   Position: ({}, {}, {})\n   Rotation: ({}, {}, {})\n   Scale:    ({}, {}, {})"
        c (m_oldPosition c) (m_oldRotation c) (m_oldScale c) w).

Definition TransformEntityCommand_redo (c : TransformEntityCommand) (w : World)
  : TransformEntityCommand * World :=
  let w := applyTransform c (m_newPosition c) (m_newRotation c) (m_newScale c) w in
  (c, transform_log
        "[TransformEntityCommand] redo() called.\nEntity UUID: {}\nReapplied New Transform:\n   Position: ({}, {}, {})\n   Rotation: ({}, {}, {})\n   Scale:    ({}, {}, {})"
        c (m_newPosition c) (m_newRotation c) (m_newScale c) w).

(** *** [ChangeMaterialInstanceCommand] (lines 163-211) *)

Record ChangeMaterialInstanceCommand : Type := {
  m_compInst : N;
  m_prop : string;
  m_propValue : variant;
  m_index : nat;
  m_oldValue : UUID;
  m_newValue : UUID
}.

(** [rttr::variant::create_sequential_view]: valid exactly for a
    sequential container. *)
Definition create_sequential_view (v : variant) : option (list UUID) :=
  match v with
  | sequence elements => Some elements
  | _ => None
  end.

(** [rttr::variant_sequential_view::set_value(index, value)]: false when
    the index is out of range. *)
Definition sequential_set_value (elements : list UUID) (index : nat) (val : UUID)
  : option (list UUID) :=
  if bool_decide (index < length elements)
  then Some (<[index := val]> elements)
  else None.

(** The type test of [rttr::property::set_value]. *)
Definition same_type (a b : variant) : bool :=
  match a, b with
  | sequence _, sequence _ => true
  | scalar _, scalar _ => true
  | _, _ => false
  end.

(** [m_prop.set_value(m_compInst, value)]: the object must exist and hold
    the property with a value of the same type. *)
Definition property_set_value (inst : N) (prop : string) (value : variant) (w : World)
  : option World :=
  match objects w !! inst ≫= λ object, object !! prop with
  | Some current =>
      if same_type current value
      then Some (with_objects (alter (insert prop value) inst) w)
      else None
  | None => None
  end.

Definition with_propValue (value : variant) (c : ChangeMaterialInstanceCommand)
  : ChangeMaterialInstanceCommand :=
  {| m_compInst := m_compInst c; m_prop := m_prop c; m_propValue := value;
     m_index := m_index c; m_oldValue := m_oldValue c; m_newValue := m_newValue c |}.

Definition applyValue (val : UUID) (c : ChangeMaterialInstanceCommand) (w : World)
  : ChangeMaterialInstanceCommand * World :=
  match create_sequential_view (m_propValue c) with
  | None => (c, write_log (TEA_ERROR "Failed to create sequential_view on propValue" []) w)
  | Some seqView =>
      match sequential_set_value seqView (m_index c) val with
      | None =>
          (c, write_log
                (TEA_ERROR "Failed to set material handle in propValue's array at index {}"
                           [arg_size (m_index c)]) w)
      | Some seqView =>
          let c := with_propValue (sequence seqView) c in
          match property_set_value (m_compInst c) (m_prop c) (m_propValue c) w with
          | Some w => (c, w)
          | None =>
              (c, write_log
                    (TEA_ERROR "Failed to set material property on component instance" [])
                    w)
          end
      end
  end.

Definition ChangeMaterialInstanceCommand_execute (c : ChangeMaterialInstanceCommand)
    (w : World) : ChangeMaterialInstanceCommand * World :=
  let '(c, w) := applyValue (m_newValue c) c w in
  (c, write_log
        (TEA_INFO "[ChangeMaterialInstanceCommand] execute(): Applied new material UUID: {}"
                  [arg_uuid (m_newValue c)]) w).

Definition ChangeMaterialInstanceCommand_undo (c : ChangeMaterialInstanceCommand)
    (w : World) : ChangeMaterialInstanceCommand * World :=
  let '(c, w) := applyValue (m_oldValue c) c w in
  (c, write_log
        (TEA_INFO "[ChangeMaterialInstanceCommand] undo(): Reverted to old material UUID: {}"
                  [arg_uuid (m_oldValue c)]) w).

Definition ChangeMaterialInstanceCommand_redo (c : ChangeMaterialInstanceCommand)
    (w : World) : ChangeMaterialInstanceCommand * World :=
  let '(c, w) := applyValue (m_newValue c) c w in
  (c, write_log
        (TEA_INFO "[ChangeMaterialInstanceCommand] redo(): Reapplied new material UUID: {}"
                  [arg_uuid (m_newValue c)]) w).

(** *** The commands behind [std::unique_ptr<Command>]

    The manager's stacks hold commands of any of the three classes; a call
    through the pointer dispatches on the class. *)
Inductive AnyCommand : Type :=
| Create (c : CreateEntityCommand)
| Transforming (c : TransformEntityCommand)
| ChangeMaterial (c : ChangeMaterialInstanceCommand).

Definition lift {C : Type} (wrap : C → AnyCommand) (r : C * World) : AnyCommand * World :=
  (wrap r.1, r.2).

#[export] Instance AnyCommand_Command : Command World AnyCommand := {
  execute cmd w :=
    match cmd with
    | Create c => lift Create (CreateEntityCommand_execute c w)
    | Transforming c => lift Transforming (TransformEntityCommand_execute c w)
    | ChangeMaterial c => lift ChangeMaterial (ChangeMaterialInstanceCommand_execute c w)
    end;
  undo cmd w :=
    match cmd with
    | Create c => lift Create (CreateEntityCommand_undo c w)
    | Transforming c => lift Transforming (TransformEntityCommand_undo c w)
    | ChangeMaterial c => lift ChangeMaterial (ChangeMaterialInstanceCommand_undo c w)
    end;
  redo cmd w :=
    match cmd with
    | Create c => lift Create (CreateEntityCommand_redo c w)
    | Transforming c => lift Transforming (TransformEntityCommand_redo c w)
    | ChangeMaterial c => lift ChangeMaterial (ChangeMaterialInstanceCommand_redo c w)
    end
}.

(** *** Vocabulary of the statements

    Two worlds are observably equal when they have the same entities with
    the same components and the same reflected objects; the log and the
    state of the identifier generator are not looked at. *)
Definition observably_equal (w1 w2 : World) : Prop :=
  registry w1 = registry w2 ∧ objects w1 = objects w2.

(** The worlds that [execute], then [undo], then [redo] lead through. *)
Definition after_execute (c : AnyCommand) (w : World) : AnyCommand * World :=
  execute c w.

Definition after_undo (c : AnyCommand) (w : World) : AnyCommand * World :=
  let '(c, w) := after_execute c w in undo c w.

Definition after_redo (c : AnyCommand) (w : World) : AnyCommand * World :=
  let '(c, w) := after_undo c w in redo c w.


(** What [applyTransform] does to the data of the entity, and whether
    [m_prop.set_value] takes a container in a world. *)
Definition moved (pos rot scl : glm.vec3) (data : EntityData) : EntityData :=
  if bool_decide (is_Some (transformComponent data))
  then setTransform pos rot scl data else data.

Definition settable (inst : N) (prop : string) (w : World) : bool :=
  match objects w !! inst ≫= λ object, object !! prop with
  | Some (sequence _) => true
  | _ => false
  end.

(** The old value that the command stores is the value that its target
    has in the world: the transform of the entity (when the entity has
    one), or the container of the property with the old identifier in the
    slot (when the property holds a container and the slot exists). *)
Definition stores_current_value (c : AnyCommand) (w : World) : Prop :=
  match c with
  | Create _ => True
  | Transforming t =>
      ∀ handle data current,
        transform_m_entity t = Some handle →
        registry w !! handle = Some data →
        transformComponent data = Some current →
        current = {| position := m_oldPosition t; rotation := m_oldRotation t;
                     scale := m_oldScale t |}
  | ChangeMaterial m =>
      ∀ elements object current,
        m_propValue m = sequence elements →
        m_index m < length elements →
        objects w !! m_compInst m = Some object →
        object !! m_prop m = Some (sequence current) →
        current = <[m_index m := m_oldValue m]> elements
  end.

End Commands.

End Cmd.

(** ** Clients of the command manager

    What the statements about whole histories are written with: a client
    that submits a list of commands and then calls [undo] and [redo] a
    number of times. *)

Module History.
Import Cmd Cmd.CommandManager.

Section Client.
Context {World C : Type} `{!Command World C}.

(** A client that submits the commands of a list, the first one first. *)
Fixpoint submit_all (cmds : list C) (manager : CommandManager.t C) (world : World)
  : CommandManager.t C * World :=
  match cmds with
  | [] => (manager, world)
  | cmd :: cmds =>
      let '(manager, world) := executeCommand cmd manager world in
      submit_all cmds manager world
  end.

(** [n] calls of [CommandManager::undo], and of [CommandManager::redo]. *)
Fixpoint undo_times (n : nat) (manager : CommandManager.t C) (world : World)
  : CommandManager.t C * World :=
  match n with
  | 0 => (manager, world)
  | S n =>
      let '(manager, world) := CommandManager.undo manager world in
      undo_times n manager world
  end.

Fixpoint redo_times (n : nat) (manager : CommandManager.t C) (world : World)
  : CommandManager.t C * World :=
  match n with
  | 0 => (manager, world)
  | S n =>
      let '(manager, world) := CommandManager.redo manager world in
      redo_times n manager world
  end.
End Client.

Section Concrete.
Context `{!Scene}.

(** Each command of the list stores, as its old value, the value that
    its target has when the command is submitted. *)
Fixpoint valid_history (cmds : list AnyCommand) (w : World) : Prop :=
  match cmds with
  | [] => True
  | c :: cmds => stores_current_value c w ∧ valid_history cmds (execute c w).2
  end.

(** The three tests of [applyValue] pass: the stored value is a
    sequential container, the index is in its range, and the property
    takes the container. *)
Definition applicable (c : ChangeMaterialInstanceCommand) (w : World) : bool :=
  match m_propValue c with
  | sequence elements =>
      bool_decide (m_index c < length elements)
      && settable (m_compInst c) (m_prop c) w
  | _ => false
  end.
End Concrete.
End History.


(** ** A small project to run the code on

    One engine and one scene, used where a statement is evaluated on concrete
    data: three prefab files (a master with a [Transform] and a [Tag], the
    JSON text [null], a text that is not JSON), a handful of registered
    component types, and variants that hold JSON values as they are. *)

Module Samples.

Import TeaEditor.

#[export] Instance Value_inhabited : Inhabited Value := populate kNull.

Definition dquote : string := String (Ascii.ascii_of_nat 34) EmptyString.
Definition quoted (s : string) : string := dquote +:+ s +:+ dquote.

(** The text of [Assets/enemy.prefab] and the value it stands for. *)
Definition enemy_text : string :=
  "{" +:+ quoted "Entity" +:+ ":{"
      +:+ quoted "Transform" +:+ ":{" +:+ quoted "position" +:+ ":[0,0,0],"
                                     +:+ quoted "scale" +:+ ":[2,2,2]},"
      +:+ quoted "Tag" +:+ ":{" +:+ quoted "name" +:+ ":" +:+ quoted "Enemy" +:+ "},"
      +:+ quoted "Parent" +:+ ":{" +:+ quoted "Parent" +:+ ":42}}}".

Definition enemy_transform : list (string * Value) :=
  [("position", kArray [kNumber 0; kNumber 0; kNumber 0]);
   ("scale", kArray [kNumber 2; kNumber 2; kNumber 2])].

Definition enemy_entity : list (string * Value) :=
  [("Transform", kObject enemy_transform);
   ("Tag", kObject [("name", kString "Enemy")]);
   ("Parent", kObject [("Parent", kNumber 42)])].

Definition enemy_value : Value := kObject [("Entity", kObject enemy_entity)].

(** The reader on the texts of this project; any other text counts as
    malformed. *)
Definition sample_reader (text : string) : option Value :=
  if bool_decide (text = enemy_text) then Some enemy_value
  else if bool_decide (text = "null") then Some kNull
  else None.

Definition sample_files (file : string) : option string :=
  if bool_decide (file = "Assets/enemy.prefab") then Some enemy_text
  else if bool_decide (file = "Assets/null.prefab") then Some "null"
  else if bool_decide (file = "Assets/broken.prefab") then Some "{"
  else None.

Definition sample_paths (handle : AssetHandle) : string :=
  match handle with
  | 1%N => "Assets/enemy.prefab"
  | 2%N => "Assets/null.prefab"
  | 3%N => "Assets/broken.prefab"
  | _ => "Assets/missing.prefab"
  end.

Definition property (name type : string) : rttr_property :=
  {| prop_name := name; prop_type := type |}.

Definition Transform_type : rttr_type :=
  {| type_name := "Transform";
     type_properties := [property "position" "vec3"; property "rotation" "vec3";
                         property "scale" "vec3"] |}.
Definition Tag_type : rttr_type :=
  {| type_name := "Tag"; type_properties := [property "name" "string"] |}.
Definition Parent_type : rttr_type :=
  {| type_name := "Parent"; type_properties := [property "Parent" "UUID"] |}.
Definition RigidBody_type : rttr_type :=
  {| type_name := "RigidBody"; type_properties := [property "mass" "float"] |}.
Definition Light_type : rttr_type :=
  {| type_name := "Light"; type_properties := [property "intensity" "float"] |}.

Definition sample_types : list rttr_type :=
  [ {| type_name := "UUIDComponent"; type_properties := [property "uuid" "UUID"] |};
    {| type_name := "OverrideComponent"; type_properties := [] |};
    Transform_type; Tag_type; Parent_type; RigidBody_type; Light_type ].

Definition sample_default (typeName : string) : gmap string Value :=
  if bool_decide (typeName = "Tag") then {[ "name" := kString "Untitled" ]}
  else ∅.

(** The override ledger is kept in the component under the names of its
    fields. *)
Definition strings_of (v : option Value) : list string :=
  match v with
  | Some (kArray elements) =>
      omap (λ element, match element with kString s => Some s | _ => None end) elements
  | _ => []
  end.

Definition sample_override (component : gmap string Value) : OverrideComponent :=
  {| masterPrefabHandle :=
       match component !! "masterPrefabHandle" with
       | Some (kNumber n) => Z.to_N n
       | _ => 0%N
       end;
     components := (λ s, {| componentName := s |}) <$> strings_of (component !! "components");
     properties := (λ s, {| path := s |}) <$> strings_of (component !! "properties") |}.

#[export] Instance sample_engine : Engine Value := {
  getSourceFilePath := sample_paths;
  ifstream := sample_files;
  reader := sample_reader;
  getAllComponentTypes := sample_types;
  defaultComponent := sample_default;
  asOverrideComponent := sample_override;
  deserializeEachProperty := λ propValue _ _, propValue;
  accepts := λ _ v, negb (IsNull v)
}.

Definition ledger (handle : Z) (added overridden : list string) : gmap string Value :=
  {[ "masterPrefabHandle" := kNumber handle;
     "components" := kArray (kString <$> added);
     "properties" := kArray (kString <$> overridden) ]}.

Definition ones : Value := kArray [kNumber 1; kNumber 1; kNumber 1].

(** Instance X of the design document: an instance of the enemy prefab with
    an overridden position and no [Tag]; it also has a [Light] that the
    master lacks and a [RigidBody] that the user added. *)
Definition instance_X : gmap string (gmap string Value) :=
  {[ "UUIDComponent" := {[ "uuid" := kNumber 1001 ]};
     "OverrideComponent" := ledger 1 ["RigidBody"] ["Transform/position"];
     "Transform" := {[ "position" := ones; "rotation" := ones; "scale" := ones ]};
     "Parent" := {[ "Parent" := kNumber 7 ]};
     "Light" := {[ "intensity" := kNumber 3 ]};
     "RigidBody" := {[ "mass" := kNumber 5 ]} ]}.

(** An instance of another prefab, and an entity that is no instance. *)
Definition instance_Y : gmap string (gmap string Value) :=
  {[ "UUIDComponent" := {[ "uuid" := kNumber 1002 ]};
     "OverrideComponent" := ledger 2 [] [];
     "Light" := {[ "intensity" := kNumber 9 ]} ]}.

Definition plain_Z : gmap string (gmap string Value) :=
  {[ "UUIDComponent" := {[ "uuid" := kNumber 1003 ]} ]}.

Definition sample_registry : gmap entt_entity (gmap string (gmap string Value)) :=
  {[ 0%N := instance_X; 1%N := instance_Y; 2%N := plain_Z ]}.

(** A scene with one entity that stands at (5, 5, 5), and a command that
    claims to move it from the origin to (1, 1, 1).  Floats are written as
    their bits: 0x3F800000 is 1.0 and 0x40A00000 is 5.0. *)
Definition one : Cmd.float := 1065353216%Z.
Definition five : Cmd.float := 1084227584%Z.

Definition vec (f : Cmd.float) : Cmd.glm.vec3 :=
  {| Cmd.glm.x := f; Cmd.glm.y := f; Cmd.glm.z := f |}.

#[export] Instance sample_scene : Cmd.Scene := {
  Cmd.generateUUID := λ seed, ((4000 + seed)%N, (seed + 1)%N);
  Cmd.initialTransform :=
    Some {| Cmd.position := vec 0%Z; Cmd.rotation := vec 0%Z; Cmd.scale := vec one |}
}.

Definition sample_world : Cmd.World := {|
  Cmd.registry :=
    {[ 0%N := {| Cmd.uuidComponent := 1001%N;
                 Cmd.transformComponent :=
                   Some {| Cmd.position := vec five; Cmd.rotation := vec 0%Z;
                           Cmd.scale := vec one |} |} ]};
  Cmd.objects :=
    {[ 7%N := {[ "materials" := Cmd.sequence [11%N; 12%N; 13%N] ]} ]};
  Cmd.generator := 0%N;
  Cmd.logger := []
|}.

Definition stale_move : Cmd.AnyCommand :=
  Cmd.Transforming
    {| Cmd.transform_m_entity := Some 0%N;
       Cmd.m_oldPosition := vec 0%Z; Cmd.m_oldRotation := vec 0%Z; Cmd.m_oldScale := vec one;
       Cmd.m_newPosition := vec one; Cmd.m_newRotation := vec 0%Z; Cmd.m_newScale := vec one |}.

Definition move : Cmd.AnyCommand :=
  Cmd.Transforming
    {| Cmd.transform_m_entity := Some 0%N;
       Cmd.m_oldPosition := vec five; Cmd.m_oldRotation := vec 0%Z; Cmd.m_oldScale := vec one;
       Cmd.m_newPosition := vec one; Cmd.m_newRotation := vec 0%Z; Cmd.m_newScale := vec one |}.

Definition repaint : Cmd.AnyCommand :=
  Cmd.ChangeMaterial
    {| Cmd.m_compInst := 7%N; Cmd.m_prop := "materials";
       Cmd.m_propValue := Cmd.sequence [11%N; 12%N; 13%N];
       Cmd.m_index := 1; Cmd.m_oldValue := 12%N; Cmd.m_newValue := 99%N |}.


Definition empty_history : Cmd.CommandManager.t Cmd.AnyCommand :=
  {| Cmd.CommandManager.undoStack := []; Cmd.CommandManager.redoStack := [] |}.

End Samples.

(** ** Variations on the sample project

    More instances, a project whose prefab file holds no entity, and a
    session of three commands. *)

Module Variations.

Import TeaEditor Samples.

(** Instance W: another instance of the enemy prefab.  The user removed its
    [Tag]; it has no [Parent], and it carries a [Script], a component of a
    type that is not registered for reflection. *)
Definition instance_W : gmap string (gmap string Value) :=
  {[ "UUIDComponent" := {[ "uuid" := kNumber 1004 ]};
     "OverrideComponent" := ledger 1 ["Tag"] [];
     "Transform" := {[ "position" := ones; "rotation" := ones; "scale" := ones ]};
     "Script" := {[ "file" := kString "patrol.lua" ]} ]}.

Definition second_registry : gmap entt_entity (gmap string (gmap string Value)) :=
  {[ 0%N := instance_W; 1%N := instance_Y; 2%N := plain_Z ]}.

(** A scene without an instance of the enemy prefab. *)
Definition other_registry : gmap entt_entity (gmap string (gmap string Value)) :=
  {[ 1%N := instance_Y; 2%N := plain_Z ]}.

(** A project whose only prefab file holds a number where the entity
    should be. *)
Definition flat_text : string := "{" +:+ quoted "Entity" +:+ ":7}".
Definition flat_value : Value := kObject [("Entity", kNumber 7)].

Definition flat_engine : Engine Value := {|
  getSourceFilePath := λ _, "Assets/flat.prefab";
  ifstream := λ file, if bool_decide (file = "Assets/flat.prefab") then Some flat_text else None;
  reader := λ text, if bool_decide (text = flat_text) then Some flat_value else None;
  getAllComponentTypes := sample_types;
  defaultComponent := sample_default;
  asOverrideComponent := sample_override;
  deserializeEachProperty := λ propValue _ _, propValue;
  accepts := λ _ v, negb (IsNull v)
|}.

(** Two sessions: move the entity and change its second material; and
    the same after an entity was created. *)
Definition sample_edits : list Cmd.AnyCommand := [move; repaint].


End Variations.


(** * Properties *)

(** ** The run monad *)

Ltac run_unfold :=
  unfold run_bind, run_ret, run_assert, run_get, run_modify, run_log,
         answer, state, logged in *; simpl in *.

Section RunLemmas.
Context {S A : Type}.
Implicit Types (body : A → Run S unit) (l : list A) (s : S).

Lemma state_bind {B C} (m : Run S B) (k : B → Run S C) s :
  state (run_bind m k s) =
    match answer (m s) with
    | Some b => state (k b (state (m s)))
    | None => state (m s)
    end.
Proof.
  unfold run_bind, state, answer. destruct (m s) as [[[b|] s'] out]; simpl; [|done].
  by destruct (k b s') as [[? ?] ?].
Qed.

Lemma answer_bind {B C} (m : Run S B) (k : B → Run S C) s :
  answer (run_bind m k s) =
    match answer (m s) with
    | Some b => answer (k b (state (m s)))
    | None => None
    end.
Proof.
  unfold run_bind, state, answer. destruct (m s) as [[[b|] s'] out]; simpl; [|done].
  by destruct (k b s') as [[? ?] ?].
Qed.

Lemma logged_bind {B C} (m : Run S B) (k : B → Run S C) s :
  logged (run_bind m k s) =
    match answer (m s) with
    | Some b => logged (m s) ++ logged (k b (state (m s)))
    | None => logged (m s)
    end.
Proof.
  unfold run_bind, state, answer, logged. destruct (m s) as [[[b|] s'] out]; simpl; [|done].
  by destruct (k b s') as [[? ?] ?].
Qed.

Lemma state_ret {B} (b : B) s : state (run_ret b s) = s.
Proof. done. Qed.
Lemma answer_ret {B} (b : B) s : answer (run_ret b s) = Some b.
Proof. done. Qed.
Lemma state_assert {B} (o : option B) s : state (run_assert o s) = s.
Proof. done. Qed.
Lemma answer_assert {B} (o : option B) s : answer (run_assert o s) = o.
Proof. done. Qed.
Lemma state_get s : state (run_get s) = s.
Proof. done. Qed.
Lemma answer_get s : answer (run_get s) = Some s.
Proof. done. Qed.
Lemma state_modify (f : S → S) s : state (run_modify f s) = f s.
Proof. done. Qed.
Lemma answer_modify (f : S → S) s : answer (run_modify f s) = Some tt.
Proof. done. Qed.
Lemma state_log line s : state (run_log line s) = s.
Proof. done. Qed.
Lemma answer_log line s : answer (run_log (S := S) line s) = Some tt.
Proof. done. Qed.

Lemma run_for_invariant (P : S → Prop) l body :
  (∀ a s, a ∈ l → P s → P (state (body a s))) →
  ∀ s, P s → P (state (run_for l body s)).
Proof.
  induction l as [|a l IH]; intros Hbody s Hs; [done|].
  simpl. rewrite state_bind.
  assert (P (state (body a s))) as Ha by (apply Hbody; [left|done]).
  destruct (answer (body a s)); [|done].
  apply IH; [|done]. intros b s' Hb. apply Hbody. by right.
Qed.

Lemma run_for_completes (P : S → Prop) l body :
  (∀ a s, a ∈ l → P s → answer (body a s) = Some tt ∧ P (state (body a s))) →
  ∀ s, P s → answer (run_for l body s) = Some tt ∧ P (state (run_for l body s)).
Proof.
  induction l as [|a l IH]; intros Hbody s Hs; [done|].
  simpl. rewrite state_bind, answer_bind.
  destruct (Hbody a s) as [-> Ha]; [left|done|].
  apply IH; [|done]. intros b s' Hb. apply Hbody. by right.
Qed.

Lemma run_for_establish (P Q : S → Prop) l1 a l2 body :
  (∀ b s, b ∈ l1 → P s → answer (body b s) = Some tt ∧ P (state (body b s))) →
  (∀ s, P s → answer (body a s) = Some tt ∧ Q (state (body a s))) →
  (∀ b s, b ∈ l2 → Q s → answer (body b s) = Some tt ∧ Q (state (body b s))) →
  ∀ s, P s →
    answer (run_for (l1 ++ a :: l2) body s) = Some tt
    ∧ Q (state (run_for (l1 ++ a :: l2) body s)).
Proof.
  intros H1 Ha H2. induction l1 as [|b l1 IH]; intros s Hs; simpl.
  - rewrite state_bind, answer_bind. destruct (Ha s Hs) as [-> HQ].
    by apply run_for_completes.
  - rewrite state_bind, answer_bind.
    destruct (H1 b s) as [-> Hb]; [left|done|].
    apply IH; [|done]. intros c s' Hc. apply H1. by right.
Qed.
End RunLemmas.

Create Rewrite HintDb run.
#[global] Hint Rewrite @state_bind @answer_bind @state_ret @answer_ret @state_assert
  @answer_assert @state_get @answer_get @state_modify @answer_modify @state_log
  @answer_log : run.

Ltac run_simpl := autorewrite with run in *; simpl in *.


(** ** Prefab.cpp: the loops *)

Import TeaEditor.

Section PropertyLoop.
Context {variant : Type} `{!Inhabited variant} `{!Engine variant}.
Implicit Types (e : Entity variant) (c : Component variant).

Lemma find_existsb {A} (f : A → bool) (l : list A) :
  is_Some (find f l) ↔ existsb f l = true.
Proof.
  induction l as [|a l IH]; simpl.
  - split; [by intros [? ?]|done].
  - destruct (f a); [by split; eauto|]. done.
Qed.

Lemma find_overridden (ledger : OverrideComponent) pth :
  find (λ o, bool_decide (path o = pth)) (properties ledger) = None ↔
  overridden ledger pth = false.
Proof.
  unfold overridden. rewrite <- not_true_iff_false, <- find_existsb, eq_None_not_Some. done.
Qed.

Lemma alter_insert_alt e T c p (v : variant) :
  e !! T = Some c → alter (λ component, <[p := v]> component) T e = <[T := <[p := v]> c]> e.
Proof.
  intros HT. apply map_eq. intros N. destruct (decide (T = N)) as [->|Hne].
  - by rewrite lookup_alter_eq, lookup_insert_eq, HT.
  - by rewrite lookup_alter_ne, lookup_insert_ne.
Qed.

Lemma overrideComp_insert e T c :
  T ≠ "OverrideComponent" → overrideComp (<[T := c]> e) = overrideComp e.
Proof. intros HT. unfold overrideComp. by rewrite lookup_insert_ne. Qed.

Lemma syncProperty_object T master prop e c :
  e !! T = Some c →
  syncProperty T (kObject master) prop e =
    (Some tt, <[T := syncedProperty (overrideComp e) T master c prop]> e, []).
Proof.
  intros HT. unfold syncProperty, syncedProperty.
  repeat case_bool_decide; simpl; try (by rewrite insert_id).
  run_unfold.
  destruct (find _ _) eqn:Hfind.
  - assert (overridden (overrideComp e) (T +:+ "/" +:+ prop_name prop) = true) as ->.
    { apply find_existsb. eauto. }
    by rewrite insert_id.
  - apply find_overridden in Hfind. rewrite Hfind.
    destruct (FindMember _ _) as [j|] eqn:Hj.
    + rewrite bool_decide_true by eauto. simpl.
      unfold set_value, get_value. rewrite HT. simpl.
      destruct (accepts _ _); [|by rewrite insert_id].
      by rewrite (alter_insert_alt _ _ c).
    + rewrite bool_decide_false by (by intros [? ?]). by rewrite insert_id.
Qed.

Lemma syncProperties_loop T master props : ∀ e c,
  T ≠ "OverrideComponent" →
  e !! T = Some c →
  run_for props (syncProperty T (kObject master)) e =
    (Some tt, <[T := syncedComponent (overrideComp e) T master props c]> e, []).
Proof.
  induction props as [|prop props IH]; intros e c HT He; simpl.
  - unfold run_ret. by rewrite insert_id.
  - unfold run_bind at 1. rewrite (syncProperty_object _ _ _ _ c) by done.
    rewrite (IH _ (syncedProperty (overrideComp e) T master c prop)); [|done|].
    + rewrite overrideComp_insert by done. by rewrite insert_insert_eq.
    + by rewrite lookup_insert_eq.
Qed.
End PropertyLoop.

Section SyncedComponent.
Context {variant : Type} `{!Inhabited variant} `{!Engine variant}.
Implicit Types (e : Entity variant) (c : Component variant).


Lemma locallyAdded_elem_of (ledger : OverrideComponent) T :
  locallyAdded ledger T = true ↔ T ∈ componentName <$> components ledger.
Proof.
  unfold locallyAdded. rewrite existsb_exists, list_elem_of_fmap.
  split.
  - intros (o & Ho & Hp). exists o. split; [by apply bool_decide_eq_true in Hp|].
    by apply list_elem_of_In.
  - intros (o & -> & Ho). exists o. split; [by apply list_elem_of_In|].
    by apply bool_decide_eq_true.
Qed.

Lemma syncedProperty_other ledger T master c prop q :
  prop_name prop ≠ q → syncedProperty ledger T master c prop !! q = c !! q.
Proof.
  intros Hq. unfold syncedProperty.
  destruct (_ || _); [done|]. destruct (FindMember _ _); [|done].
  destruct (accepts _ _); [|done]. by rewrite lookup_insert_ne.
Qed.

Lemma syncedProperty_kept ledger T master c prop :
  prop_name prop = "Scene ID" ∨ prop_name prop = "Parent"
  ∨ overridden ledger (T +:+ "/" +:+ prop_name prop) = true
  ∨ FindMember (prop_name prop) master = None →
  syncedProperty ledger T master c prop = c.
Proof.
  unfold syncedProperty. intros [-> | [-> | [-> | ->]]]; simpl; try done.
  - by rewrite orb_true_r.
  - by destruct (_ || _).
Qed.

Lemma syncedComponent_kept ledger T master props : ∀ c q,
  q = "Scene ID" ∨ q = "Parent"
  ∨ overridden ledger (T +:+ "/" +:+ q) = true
  ∨ FindMember q master = None
  ∨ q ∉ prop_name <$> props →
  syncedComponent ledger T master props c !! q = c !! q.
Proof.
  unfold syncedComponent.
  induction props as [|prop props IH]; intros c q Hq; [done|]. simpl.
  rewrite IH.
  - destruct (decide (prop_name prop = q)) as [<-|Hne].
    + rewrite syncedProperty_kept; [done|].
      destruct Hq as [?|[?|[?|[?|Hq]]]]; eauto. exfalso. apply Hq. simpl. left.
    + by apply syncedProperty_other.
  - destruct Hq as [?|[?|[?|[?|Hq]]]]; eauto. do 4 right. intros ?. apply Hq. simpl. by right.
Qed.

End SyncedComponent.

Section TypeLoop.
Context {variant : Type} `{!Inhabited variant} `{!Engine variant}.
Implicit Types (e : Entity variant) (c : Component variant).

Lemma syncProperty_cases T cd prop e :
  state (syncProperty T cd prop e) = e
  ∨ (overridden (overrideComp e) (T +:+ "/" +:+ prop_name prop) = false
     ∧ ∃ v, state (syncProperty T cd prop e)
            = alter (λ component, <[prop_name prop := v]> component) T e).
Proof.
  unfold syncProperty. repeat case_bool_decide; try (by left).
  run_unfold. destruct (find _ _) eqn:Hfind; [by left|].
  apply find_overridden in Hfind.
  destruct (HasMember cd _) as [[]|]; simpl; try (by left).
  destruct (subscript cd _); simpl; [|by left].
  unfold set_value. destruct (accepts _ _); [|by left].
  right. eauto.
Qed.

Lemma property_loop_frame T cd props e N :
  N ≠ T → state (run_for props (syncProperty T cd) e) !! N = e !! N.
Proof.
  intros HN.
  apply (run_for_invariant (λ e', e' !! N = e !! N)); [|done].
  intros prop e' _ <-.
  destruct (syncProperty_cases T cd prop e') as [->|[_ [v ->]]]; [done|].
  by rewrite lookup_alter_ne.
Qed.


Lemma syncProperties_cases ed ct e :
  state (syncProperties ed ct e) = e
  ∨ ∃ cd, subscript ed (type_name ct) = Some cd
          ∧ is_Some (e !! type_name ct)
          ∧ state (syncProperties ed ct e)
            = state (run_for (type_properties ct) (syncProperty (type_name ct) cd) e).
Proof.
  unfold syncProperties. run_unfold.
  destruct (HasMember ed _) as [[]|]; simpl; try (by left).
  destruct (subscript ed _) as [cd|]; simpl; [|by left].
  unfold getComponent. destruct (e !! type_name ct) eqn:He; simpl; [|by left].
  right. exists cd. split; [done|]. split; [by eauto|].
  by destruct (run_for _ _ e) as [[? ?] ?].
Qed.

Lemma syncProperties_frame ed ct e N :
  N ≠ type_name ct → state (syncProperties ed ct e) !! N = e !! N.
Proof.
  intros HN. destruct (syncProperties_cases ed ct e) as [->|(cd & _ & _ & ->)]; [done|].
  by apply property_loop_frame.
Qed.

(** What the add/remove rules do before the properties are synchronised. *)
Lemma syncComponentType_cases ed ct e :
  let T := type_name ct in
  state (syncComponentType ed ct e) = e
  ∨ ∃ e1, state (syncComponentType ed ct e) = state (syncProperties ed ct e1)
          ∧ (e1 = e
             ∨ (e1 = addComponent T e ∧ HasMember ed T = Some true ∧ e !! T = None
                ∧ locallyAdded (overrideComp e) T = false
                ∧ T ≠ "Child" ∧ T ≠ "Parent")
             ∨ (e1 = removeComponent T e ∧ HasMember ed T = Some false
                ∧ is_Some (e !! T) ∧ locallyAdded (overrideComp e) T = false
                ∧ T ≠ "UUIDComponent" ∧ T ≠ "OverrideComponent")).
Proof.
  intros T. unfold syncComponentType. fold T. case_bool_decide; [by left|].
  run_simpl.
  destruct (HasMember ed T) as [inAsset|] eqn:Hasset; simpl; [|by left].
  run_simpl. fold (locallyAdded (overrideComp e) T).
  unfold hasComponent.
  destruct (inAsset && _ && _) eqn:Hadd.
  { apply andb_true_iff in Hadd as [[-> Hhas]%andb_true_iff Hloc].
    apply negb_true_iff in Hhas, Hloc. apply bool_decide_eq_false in Hhas.
    apply eq_None_not_Some in Hhas.
    destruct (_ || _) eqn:Hlink; [by left|].
    apply orb_false_iff in Hlink as [?%bool_decide_eq_false ?%bool_decide_eq_false].
    run_simpl. right. eexists. split; [done|]. right. left. by repeat split. }
  destruct (negb inAsset && _) eqn:Hrem; [|right; by eauto].
  apply andb_true_iff in Hrem as [->%negb_true_iff Hhas%bool_decide_eq_true].
  destruct (_ || _) eqn:Hguard; [by left|].
  apply orb_false_iff in Hguard as [?%bool_decide_eq_false ?%bool_decide_eq_false].
  run_simpl.
  destruct (negb _) eqn:Hloc; run_simpl; right; eexists; (split; [done|]); [|by left].
  apply negb_true_iff in Hloc. right. right. by repeat split.
Qed.

Lemma syncComponentType_frame ed ct e N :
  N ≠ type_name ct → state (syncComponentType ed ct e) !! N = e !! N.
Proof.
  intros HN.
  destruct (syncComponentType_cases ed ct e) as [->|(e1 & -> & He1)]; [done|].
  rewrite syncProperties_frame by done.
  destruct He1 as [->|[[-> _]|[-> _]]]; [done| |].
  - unfold addComponent. by rewrite lookup_insert_ne.
  - unfold removeComponent. by rewrite lookup_delete_ne.
Qed.

Lemma HasMember_object ms T :
  HasMember (kObject ms) T = Some (bool_decide (is_Some (FindMember T ms))).
Proof. done. Qed.

Lemma HasMember_None ms T : FindMember T ms = None → HasMember (kObject ms) T = Some false.
Proof. intros H. simpl. rewrite H. by rewrite bool_decide_false by (by intros [? ?]). Qed.

Lemma HasMember_Some ms T cd :
  FindMember T ms = Some cd → HasMember (kObject ms) T = Some true.
Proof. intros H. simpl. rewrite H. by rewrite bool_decide_true by eauto. Qed.

(** A component type that the master does not list: the step removes the
    component or leaves the entity as it is. *)
Lemma syncComponentType_absent ms ct e :
  let T := type_name ct in
  FindMember T ms = None →
  state (syncComponentType (kObject ms) ct e) =
    if bool_decide (T ≠ "Scene ID" ∧ T ≠ "UUIDComponent" ∧ T ≠ "OverrideComponent")
       && negb (locallyAdded (overrideComp e) T)
    then removeComponent T e else e.
Proof.
  intros T Hms. pose proof (HasMember_None _ _ Hms) as Hhas.
  unfold syncComponentType. fold T. case_bool_decide as Hscene.
  { rewrite bool_decide_false; [done|]. by intros (? & ? & ?). }
  rewrite state_bind. simpl. rewrite Hms. rewrite bool_decide_false by (by intros [? ?]).
  simpl. rewrite state_bind. simpl. fold (locallyAdded (overrideComp e) T).
  assert (∀ e1, state (syncProperties (kObject ms) ct e1) = e1) as Hsync.
  { intros e1. unfold syncProperties. fold T. rewrite state_bind. simpl.
    rewrite Hms. by rewrite bool_decide_false by (by intros [? ?]). }
  unfold hasComponent. case_bool_decide as Hpresent; simpl.
  - destruct (bool_decide (T = "UUIDComponent")) eqn:Hu; simpl.
    { apply bool_decide_eq_true in Hu. rewrite bool_decide_false; [done|]. by intros (? & ? & ?). }
    destruct (bool_decide (T = "OverrideComponent")) eqn:Ho; simpl.
    { apply bool_decide_eq_true in Ho. rewrite bool_decide_false; [done|]. by intros (? & ? & ?). }
    apply bool_decide_eq_false in Hu, Ho. rewrite bool_decide_true by done. simpl.
    rewrite state_bind. destruct (negb _); simpl; by rewrite Hsync.
  - rewrite Hsync. case_match; [|done].
    unfold removeComponent. rewrite delete_id; [done|]. by apply eq_None_not_Some.
Qed.

Lemma FindMember_wellFormed ms T cd :
  wellFormed ms = true → FindMember T ms = Some cd → ∃ pm, cd = kObject pm.
Proof.
  unfold wellFormed. induction ms as [|[k v] ms IH]; simpl; [done|].
  intros [Hv Hms]%andb_true_iff. case_bool_decide; [|by apply IH].
  intros [= <-]. destruct v; try done. eauto.
Qed.

Lemma property_loop_completes T pm props e :
  is_Some (e !! T) →
  answer (run_for props (syncProperty T (kObject pm)) e) = Some tt.
Proof.
  intros He.
  apply (run_for_completes (λ e', is_Some (e' !! T))); [|done].
  intros prop e' _ [c Hc]. rewrite (syncProperty_object _ _ _ _ c) by done.
  split; [done|]. unfold state. simpl. rewrite lookup_insert_eq. eauto.
Qed.

Lemma syncProperties_completes ms ct e :
  wellFormed ms = true → answer (syncProperties (kObject ms) ct e) = Some tt.
Proof.
  intros Hwf. unfold syncProperties. run_simpl.
  destruct (FindMember (type_name ct) ms) as [cd|] eqn:Hcd.
  - rewrite bool_decide_true by eauto. run_simpl.
    destruct (FindMember_wellFormed _ _ _ Hwf Hcd) as [pm ->].
    unfold getComponent. destruct (e !! type_name ct) eqn:He; [|done].
    apply property_loop_completes. rewrite He. eauto.
  - by rewrite bool_decide_false by (by intros [? ?]).
Qed.

Lemma syncComponentType_completes ms ct e :
  wellFormed ms = true → answer (syncComponentType (kObject ms) ct e) = Some tt.
Proof.
  intros Hwf. unfold syncComponentType. case_bool_decide; [done|].
  run_simpl. repeat (case_match; run_simpl; try done);
    by apply syncProperties_completes.
Qed.

(** A component type that master and instance both have. *)
Lemma syncComponentType_present ms ct e pm c :
  let T := type_name ct in
  T ≠ "Scene ID" → T ≠ "OverrideComponent" →
  FindMember T ms = Some (kObject pm) →
  e !! T = Some c →
  state (syncComponentType (kObject ms) ct e) =
    <[T := syncedComponent (overrideComp e) T pm (type_properties ct) c]> e.
Proof.
  intros T Hscene Hoc Hms He.
  unfold syncComponentType. fold T. rewrite bool_decide_false by done.
  run_simpl. rewrite Hms, bool_decide_true by eauto. run_simpl.
  unfold hasComponent. rewrite bool_decide_true by (rewrite He; eauto). simpl.
  unfold syncProperties. fold T. run_simpl. rewrite Hms, bool_decide_true by eauto.
  run_simpl. rewrite ?Hms. run_simpl. unfold getComponent. rewrite He.
  by rewrite (syncProperties_loop _ _ _ _ c).
Qed.

(** The add rule. *)
Lemma syncComponentType_add ms ct e pm :
  let T := type_name ct in
  T ≠ "Scene ID" → T ≠ "Child" → T ≠ "Parent" → T ≠ "OverrideComponent" →
  FindMember T ms = Some (kObject pm) →
  e !! T = None →
  locallyAdded (overrideComp e) T = false →
  state (syncComponentType (kObject ms) ct e) =
    <[T := syncedComponent (overrideComp e) T pm (type_properties ct) (defaultComponent T)]> e.
Proof.
  intros T Hscene Hchild Hparent Hoc Hms He Hloc.
  unfold syncComponentType. fold T. rewrite bool_decide_false by done.
  run_simpl. rewrite Hms, bool_decide_true by eauto. run_simpl.
  unfold hasComponent. rewrite bool_decide_false by (rewrite He; by intros [? ?]).
  fold (locallyAdded (overrideComp e) T). rewrite Hloc. simpl.
  rewrite !bool_decide_false by done. run_simpl.
  unfold syncProperties. fold T. run_simpl. rewrite Hms, bool_decide_true by eauto.
  run_simpl. rewrite ?Hms. run_simpl. unfold getComponent, addComponent.
  rewrite lookup_insert_eq.
  rewrite (syncProperties_loop _ _ _ _ (defaultComponent T));
    [|done|by rewrite lookup_insert_eq].
  unfold state. simpl. rewrite overrideComp_insert by done.
  by rewrite insert_insert_eq.
Qed.

(** The ledger survives a step when the master has no entry for it. *)
Lemma syncComponentType_ledger ms ct e :
  FindMember "OverrideComponent" ms = None →
  state (syncComponentType (kObject ms) ct e) !! "OverrideComponent"
  = e !! "OverrideComponent".
Proof.
  intros Hms. destruct (decide ("OverrideComponent" = type_name ct)) as [Heq|Hne].
  - rewrite syncComponentType_absent by (by rewrite <- Heq).
    rewrite <- Heq. rewrite bool_decide_false; [done|]. by intros (? & ? & ?).
  - by apply syncComponentType_frame.
Qed.

Lemma overrideComp_ledger e e' :
  e' !! "OverrideComponent" = e !! "OverrideComponent" → overrideComp e' = overrideComp e.
Proof. unfold overrideComp. by intros ->. Qed.
End TypeLoop.

Section Pass.
Context {variant : Type} `{!Inhabited variant} `{!Engine variant}.
Implicit Types (e : Entity variant) (registry : Registry variant).

Lemma syncEntity_other handle prefabPath doc e :
  masterPrefabHandle (overrideComp e) ≠ handle →
  state (syncEntity handle prefabPath doc e) = e.
Proof.
  intros Hne. unfold syncEntity. run_simpl. by rewrite bool_decide_false.
Qed.

Lemma syncEntity_match handle prefabPath doc e ms :
  masterPrefabHandle (overrideComp e) = handle →
  subscript (root doc) "Entity" = Some (kObject ms) →
  syncEntity handle prefabPath doc e
  = run_for getAllComponentTypes (syncComponentType (kObject ms)) e.
Proof.
  intros Hmatch Hentity. unfold syncEntity, run_bind, run_get, run_assert. simpl.
  rewrite bool_decide_true by done. rewrite Hentity. simpl.
  by destruct (run_for _ _ e) as [[? ?] ?].
Qed.

Lemma types_loop_completes ms types e :
  wellFormed ms = true →
  answer (run_for types (syncComponentType (kObject ms)) e) = Some tt.
Proof.
  intros Hwf.
  apply (run_for_completes (λ _, True)); [|done].
  intros ct e' _ _. split; [|done]. by apply syncComponentType_completes.
Qed.

Lemma syncEntity_completes handle prefabPath doc e ms :
  subscript (root doc) "Entity" = Some (kObject ms) →
  wellFormed ms = true →
  answer (syncEntity handle prefabPath doc e) = Some tt.
Proof.
  intros Hentity Hwf. unfold syncEntity. run_simpl.
  case_bool_decide; [|done]. rewrite Hentity. run_simpl.
  by apply types_loop_completes.
Qed.

Lemma at_entity_other j body registry i :
  j ≠ i → state (at_entity j body registry) !! i = registry !! i.
Proof.
  intros Hne. unfold at_entity. destruct (registry !! j) as [e|]; [|done].
  destruct (body e) as [[r e'] out]. unfold state. simpl. by rewrite lookup_insert_ne.
Qed.

Lemma at_entity_same i body registry e :
  registry !! i = Some e →
  state (at_entity i body registry) !! i = Some (state (body e))
  ∧ answer (at_entity i body registry) = answer (body e).
Proof.
  intros He. unfold at_entity. rewrite He.
  destruct (body e) as [[r e'] out]. unfold state, answer. simpl.
  by rewrite lookup_insert_eq.
Qed.

Lemma at_entity_completes j body registry :
  (∀ e, answer (body e) = Some tt) → answer (at_entity j body registry) = Some tt.
Proof.
  intros Hbody. unfold at_entity. destruct (registry !! j) as [e|]; [|done].
  specialize (Hbody e). destruct (body e) as [[r e'] out]. done.
Qed.

(** A property of one entity that the loop body preserves holds of that
    entity after the whole pass, however the pass ends. *)
Lemma pass_invariant (P : Entity variant → Prop) body handles registry i e :
  (∀ e', P e' → P (state (body e'))) →
  registry !! i = Some e → P e →
  ∃ e', state (run_for handles (λ j, at_entity j body) registry) !! i = Some e' ∧ P e'.
Proof.
  intros Hbody He HP.
  apply (run_for_invariant (λ registry', ∃ e', registry' !! i = Some e' ∧ P e'));
    [|by eauto].
  intros j registry' _ (e' & He' & HP').
  destruct (decide (j = i)) as [->|Hne].
  - destruct (at_entity_same i body registry' e' He') as [-> _]. eauto.
  - rewrite at_entity_other by done. eauto.
Qed.

(** When the loop body never stops the program, an entity that the view
    yields (once) ends as the body leaves it. *)
Lemma pass_exact body handles registry i e :
  (∀ e', answer (body e') = Some tt) →
  NoDup handles → i ∈ handles →
  registry !! i = Some e →
  state (run_for handles (λ j, at_entity j body) registry) !! i = Some (state (body e)).
Proof.
  intros Hbody Hnd Hin He.
  apply list_elem_of_split in Hin as (l1 & l2 & ->).
  apply NoDup_app in Hnd as (_ & Hl1 & [Hl2 _]%NoDup_cons).
  apply (run_for_establish (λ registry', registry' !! i = Some e)
                           (λ registry', registry' !! i = Some (state (body e))));
    [| | |done].
  - intros j registry' Hj Hi. assert (j ≠ i) as Hne.
    { intros ->. apply (Hl1 i); [done|left]. }
    split; [by apply at_entity_completes|]. by rewrite at_entity_other.
  - intros registry' Hi. destruct (at_entity_same i body registry' e Hi) as [-> ->].
    done.
  - intros j registry' Hj Hi. assert (j ≠ i) as Hne by (by intros ->).
    split; [by apply at_entity_completes|]. by rewrite at_entity_other.
Qed.

Lemma elem_of_view registry i :
  i ∈ view registry ↔ ∃ e, registry !! i = Some e ∧ inView e = true.
Proof.
  unfold view. rewrite list_elem_of_fmap. split.
  - intros ([j e] & -> & Hin). apply elem_of_map_to_list in Hin.
    apply map_lookup_filter_Some in Hin as [? ?]. eauto.
  - intros (e & He & Hview). exists (i, e). split; [done|].
    apply elem_of_map_to_list. by apply map_lookup_filter_Some.
Qed.

Lemma NoDup_view registry : NoDup (view registry).
Proof. apply NoDup_fst_map_to_list. Qed.

(** The pass on a master that was read and parsed. *)
Lemma updateAllPrefabInstance_loaded handle registry text rootValue ms :
  ifstream (getSourceFilePath handle) = Some text →
  reader text = Some rootValue →
  subscript rootValue "Entity" = Some (kObject ms) →
  updateAllPrefabInstance handle registry
  = run_for (view registry)
      (λ entityHandle,
         at_entity entityHandle
           (syncEntity handle (getSourceFilePath handle)
                       {| root := rootValue; HasParseError := false |}))
      registry.
Proof.
  intros Hfile Hparse Hentity.
  unfold updateAllPrefabInstance, loadPrefab. rewrite Hfile.
  unfold ParseStream. rewrite Hparse. simpl.
  unfold run_bind, run_ret, run_get. simpl.
  destruct rootValue; try done. simpl.
  by destruct (run_for _ _ registry) as [[? ?] ?].
Qed.
End Pass.

Section TypesLoop.
Context {variant : Type} `{!Inhabited variant} `{!Engine variant}.
Implicit Types (e : Entity variant) (registry : Registry variant).

Lemma loadPrefab_state {S} prefabPath (s : S) :
  state (loadPrefab prefabPath s) = s ∧ is_Some (answer (loadPrefab prefabPath s)).
Proof.
  unfold loadPrefab. destruct (ifstream prefabPath); run_simpl.
  - destruct (HasParseError _); run_simpl; eauto.
  - eauto.
Qed.

(** The component [T] after the loop over the types is the one that the
    step for [T] produces; the steps before it leave [T] and the ledger
    alone, and so do the steps after it. *)
Lemma types_loop_key ms types ct e X :
  let T := type_name ct in
  wellFormed ms = true →
  FindMember "OverrideComponent" ms = None →
  NoDup (type_name <$> types) → ct ∈ types →
  (∀ e1, e1 !! "OverrideComponent" = e !! "OverrideComponent" → e1 !! T = e !! T →
         state (syncComponentType (kObject ms) ct e1) !! T = X) →
  state (run_for types (syncComponentType (kObject ms)) e) !! T = X.
Proof.
  intros T Hwf Hoc Hnd Hin Hstep.
  apply list_elem_of_split in Hin as (l1 & l2 & ->).
  rewrite fmap_app, fmap_cons in Hnd.
  apply NoDup_app in Hnd as (_ & Hl1 & [Hl2 _]%NoDup_cons).
  apply (run_for_establish
           (λ e1, e1 !! "OverrideComponent" = e !! "OverrideComponent" ∧ e1 !! T = e !! T)
           (λ e1, e1 !! T = X)); [| | |done].
  - intros ct' e1 Hct' [Hledger HT]. split; [by apply syncComponentType_completes|].
    split; [by rewrite syncComponentType_ledger|].
    rewrite syncComponentType_frame; [done|]. intros Heq.
    apply (Hl1 (type_name ct')); [by apply list_elem_of_fmap_2|]. rewrite <- Heq. left.
  - intros e1 [Hledger HT]. split; [by apply syncComponentType_completes|]. by apply Hstep.
  - intros ct' e1 Hct' HT. split; [by apply syncComponentType_completes|].
    rewrite syncComponentType_frame; [done|]. intros Heq.
    apply Hl2. fold T. rewrite Heq. by apply list_elem_of_fmap_2.
Qed.



End TypesLoop.

(** ** Prefab.cpp: the properties of the design document *)

Section PrefabProperties.
Context {variant : Type} `{!Inhabited variant} `{!Engine variant}.
Implicit Types (e : Entity variant) (registry : Registry variant).

(** C9.  An entity whose ledger names another master than the handle being
    synchronised is, after [updateAllPrefabInstance], exactly the entity it
    was: the same components with the same property values. *)
Theorem other_instances_untouched handle registry i e :
  registry !! i = Some e →
  masterPrefabHandle (overrideComp e) ≠ handle →
  state (updateAllPrefabInstance handle registry) !! i = Some e.
Proof.
  intros He Hother. unfold updateAllPrefabInstance. rewrite state_bind.
  destruct (loadPrefab_state (getSourceFilePath handle) registry) as [-> [doc ->]].
  destruct (IsNull (root doc)); [done|].
  rewrite state_bind, answer_get, state_get.
  destruct (pass_invariant (λ e', e' = e)
              (syncEntity handle (getSourceFilePath handle) doc)
              (view registry) registry i e) as (e' & -> & ->); try done.
  intros e' ->. by apply syncEntity_other.
Qed.

(** C2.  When the file of the master opens and its text does not parse,
    [updateAllPrefabInstance] returns with the registry as it was, and the
    log holds the line that reports the parse failure (and nothing else). *)
Theorem malformed_master_aborts handle registry text :
  ifstream (getSourceFilePath handle) = Some text →
  reader text = None →
  updateAllPrefabInstance handle registry
  = (Some tt, registry,
     [TEA_INFO "Failed to parse prefab file: {0}" [arg_string (getSourceFilePath handle)]]).
Proof.
  intros Hfile Hparse. unfold updateAllPrefabInstance, loadPrefab.
  rewrite Hfile. unfold ParseStream. rewrite Hparse. done.
Qed.

(** C10, as amended.  [loadPrefab] gives the empty document and logs the
    failure when the file does not open; when it opens, it gives the
    document that [ParseStream] leaves, and logs the failure when the text
    does not parse.  The document is Null when the file does not open, when
    the text does not parse, and when the text is the JSON [null] -- not
    only in the first case. *)
Theorem loadPrefab_result {S : Type} prefabPath (s : S) :
  loadPrefab prefabPath s
  = match ifstream prefabPath with
    | None =>
        (Some emptyDocument, s,
         [TEA_INFO "Failed to open prefab file: {0}" [arg_string prefabPath]])
    | Some text =>
        (Some (ParseStream reader text emptyDocument), s,
         if HasParseError (ParseStream reader text emptyDocument)
         then [TEA_INFO "Failed to parse prefab file: {0}" [arg_string prefabPath]]
         else [])
    end
  ∧ (default false (IsNull ∘ root <$> answer (loadPrefab prefabPath s)) = true
     ↔ ifstream prefabPath = None
       ∨ ∃ text, ifstream prefabPath = Some text
                 ∧ (reader text = None ∨ reader text = Some kNull)).
Proof.
  unfold loadPrefab. destruct (ifstream prefabPath) as [text|]; simpl.
  - unfold ParseStream. destruct (reader text) as [v|] eqn:Hv; simpl.
    + split; [done|]. split.
      * intros Hnull. right. exists text. split; [done|]. right.
        by destruct v.
      * intros [?|(text' & [= <-] & [?|Hnull])]; [done|congruence|].
        rewrite Hv in Hnull. by injection Hnull as ->.
    + split; [done|]. split; [|done]. intros _. right. eauto.
  - split; [done|]. split; [by left|done].
Qed.



End PrefabProperties.

(** ** UndoRedo.cpp: the command manager *)

Section ManagerProperties.
Import Cmd Cmd.CommandManager.
Context {World C : Type} `{!Command World C}.
Implicit Types (cmd : C) (manager : CommandManager.t C) (world : World).

Lemma pop_all_empty (stack : list C) : pop_all stack = [].
Proof. by induction stack. Qed.

(** C3.  [executeCommand] runs [execute] of the command once on the world
    it is given, puts the command (as [execute] left it) on top of the undo
    stack and leaves the redo stack empty.  Hence after a submit, an undo
    and a second submit the redo stack is empty and the next undo calls the
    [undo] of the second command. *)
Theorem executeCommand_submit cmd manager world :
  executeCommand cmd manager world
  = ({| undoStack := (execute cmd world).1 :: undoStack manager; redoStack := [] |},
     (execute cmd world).2)
  ∧ (∀ (history : CommandManager.t C) (calls : list (Call C)),
       (@executeCommand _ _ (recorder C) cmd history calls).2
       = calls ++ [called_execute cmd])
  ∧ (∀ a b,
       let '(m1, w1) := executeCommand a manager world in
       let '(m2, w2) := CommandManager.undo m1 w1 in
       let '(m3, w3) := executeCommand b m2 w2 in
       redoStack m3 = []
       ∧ CommandManager.undo m3 w3
         = ({| undoStack := undoStack manager;
               redoStack := [(Cmd.undo (execute b w2).1 w3).1] |},
            (Cmd.undo (execute b w2).1 w3).2)).
Proof.
  split; [|split].
  - unfold executeCommand. destruct (execute cmd world). by rewrite pop_all_empty.
  - intros history calls. done.
  - intros a b. unfold executeCommand, CommandManager.undo. simpl.
    destruct (execute a world) as [a1 w1]. simpl.
    destruct (Cmd.undo a1 w1) as [a2 w2]. simpl.
    destruct (execute b w2) as [b1 w3]. simpl.
    rewrite pop_all_empty. split; [done|].
    by destruct (Cmd.undo b1 w3).
Qed.

(** C8.  [undo] leaves manager and world as they are when the undo stack
    is empty; otherwise it pops the top command, calls its [undo] and pushes
    it on the redo stack.  [redo] does the same with the stacks exchanged
    and the command's [redo]. *)
Theorem undo_redo_stacks cmd (undos redos : list C) world :
  CommandManager.undo {| undoStack := []; redoStack := redos |} world
  = ({| undoStack := []; redoStack := redos |}, world)
  ∧ CommandManager.undo {| undoStack := cmd :: undos; redoStack := redos |} world
    = ({| undoStack := undos; redoStack := (Cmd.undo cmd world).1 :: redos |},
       (Cmd.undo cmd world).2)
  ∧ CommandManager.redo {| undoStack := undos; redoStack := [] |} world
    = ({| undoStack := undos; redoStack := [] |}, world)
  ∧ CommandManager.redo {| undoStack := undos; redoStack := cmd :: redos |} world
    = ({| undoStack := (Cmd.redo cmd world).1 :: undos; redoStack := redos |},
       (Cmd.redo cmd world).2).
Proof.
  unfold CommandManager.undo, CommandManager.redo. simpl.
  destruct (Cmd.undo cmd world), (Cmd.redo cmd world). done.
Qed.
End ManagerProperties.

(** ** UndoRedo.cpp: the concrete commands *)

Section CommandProperties.
Import Cmd Cmd.CommandManager.
Context `{!Scene}.
Implicit Types (w : World) (manager : CommandManager.t AnyCommand).

Lemma fresh_handle_free w : registry w !! fresh (dom (registry w)) = None.
Proof. apply not_elem_of_dom. apply is_fresh. Qed.

(** C7.  Submit a [CreateEntityCommand], undo, redo.  The entity made by
    [execute] carries the identifier drawn from the generator; the undo
    removes it; the entity made by the redo carries that same identifier,
    and the redo draws nothing from the generator. *)
Theorem create_undo_redo_keeps_uuid (c : CreateEntityCommand) manager w :
  let '(m1, w1) := executeCommand (Create c) manager w in
  let '(m2, w2) := CommandManager.undo m1 w1 in
  let '(m3, w3) := CommandManager.redo m2 w2 in
  ∃ created recreated uuid,
    undoStack m1
    = Create {| create_m_entity := Some created; create_m_uuid := uuid |}
        :: undoStack manager
    ∧ uuid = (generateUUID (generator w)).1
    ∧ uuidComponent <$> registry w1 !! created = Some uuid
    ∧ registry w2 !! created = None
    ∧ undoStack m3
      = Create {| create_m_entity := Some recreated; create_m_uuid := uuid |}
          :: undoStack manager
    ∧ uuidComponent <$> registry w3 !! recreated = Some uuid
    ∧ generator w3 = generator w1.
Proof.
  unfold executeCommand, CommandManager.undo, CommandManager.redo. simpl.
  unfold CreateEntityCommand_execute, createEntity.
  destruct (generateUUID (generator w)) as [uuid next] eqn:Hgen. simpl.
  unfold getUUID. simpl. rewrite lookup_insert_eq. simpl.
  eexists _, _, uuid. split; [done|]. split; [done|].
  rewrite lookup_insert_eq. split; [done|].
  rewrite lookup_delete_eq. split; [done|]. split; [done|].
  rewrite lookup_insert_eq. done.
Qed.

(** *** The transform command *)

Lemma applyTransform_registry c pos rot scl w :
  registry (applyTransform c pos rot scl w)
  = match transform_m_entity c with
    | Some handle => alter (moved pos rot scl) handle (registry w)
    | None => registry w
    end.
Proof.
  unfold applyTransform, hasTransform.
  destruct (transform_m_entity c) as [handle|]; simpl; [|done].
  destruct (registry w !! handle) as [data|] eqn:Hdata; simpl.
  - case_bool_decide as Hsome; simpl.
    + apply alter_ext. intros data' Hdata'. unfold moved.
      assert (data' = data) as -> by congruence. by rewrite bool_decide_true.
    + symmetry. apply map_eq. intros h. destruct (decide (handle = h)) as [<-|Hne].
      * rewrite lookup_alter_eq, Hdata. simpl. unfold moved.
        by rewrite bool_decide_false.
      * by rewrite lookup_alter_ne.
  - symmetry. apply map_eq. intros h. destruct (decide (handle = h)) as [<-|Hne].
    + by rewrite lookup_alter_eq, Hdata.
    + by rewrite lookup_alter_ne.
Qed.

Lemma applyTransform_objects c pos rot scl w :
  objects (applyTransform c pos rot scl w) = objects w.
Proof.
  unfold applyTransform. destruct (hasTransform _ _); [|done].
  by destruct (transform_m_entity c).
Qed.

Lemma moved_moved pos rot scl pos' rot' scl' data :
  moved pos rot scl (moved pos' rot' scl' data) = moved pos rot scl data.
Proof.
  unfold moved. by destruct data as [uuid [current|]].
Qed.

Lemma transform_inverse (t : TransformEntityCommand) w :
  (stores_current_value (Transforming t) w →
   observably_equal (after_undo (Transforming t) w).2 w)
  ∧ observably_equal (after_redo (Transforming t) w).2 (after_execute (Transforming t) w).2.
Proof.
  unfold after_redo, after_undo, after_execute, observably_equal. simpl.
  rewrite !applyTransform_registry, !applyTransform_objects. simpl.
  rewrite !applyTransform_registry, !applyTransform_objects. simpl.
  rewrite !applyTransform_registry, !applyTransform_objects. simpl.
  destruct (transform_m_entity t) as [handle|] eqn:Hentity; [|done].
  split.
  - intros Hold. split; [|done]. rewrite alter_alter_eq.
    apply alter_id. intros data Hdata. simpl. rewrite moved_moved. unfold moved.
    destruct data as [uuid [current|]]; simpl; [|done].
    unfold setTransform. simpl.
    by rewrite (Hold handle _ current eq_refl Hdata eq_refl).
  - split; [|done]. rewrite !alter_alter_eq. apply alter_ext. intros data _.
    simpl. by rewrite !moved_moved.
Qed.

(** *** The material command *)

Lemma property_set_value_sequence inst prop elements w :
  property_set_value inst prop (sequence elements) w
  = if settable inst prop w
    then Some (with_objects (alter (insert prop (sequence elements)) inst) w)
    else None.
Proof.
  unfold property_set_value, settable.
  destruct (objects w !! inst ≫= _) as [[]|]; done.
Qed.

Lemma applyValue_effective val c w elements :
  m_propValue c = sequence elements →
  m_index c < length elements →
  let r := applyValue val c w in
  r.1 = with_propValue (sequence (<[m_index c := val]> elements)) c
  ∧ registry r.2 = registry w
  ∧ objects r.2
    = if settable (m_compInst c) (m_prop c) w
      then alter (insert (m_prop c) (sequence (<[m_index c := val]> elements)))
                 (m_compInst c) (objects w)
      else objects w.
Proof.
  intros Hvalue Hindex. unfold applyValue. rewrite Hvalue. simpl.
  unfold sequential_set_value. rewrite bool_decide_true by done. simpl.
  rewrite property_set_value_sequence. by destruct (settable _ _ w).
Qed.

Lemma applyValue_ineffective val c w :
  (∀ elements, m_propValue c = sequence elements → ¬ m_index c < length elements) →
  let r := applyValue val c w in
  r.1 = c ∧ registry r.2 = registry w ∧ objects r.2 = objects w.
Proof.
  intros Hno. unfold applyValue.
  destruct (m_propValue c) as [|elements|] eqn:Hvalue; simpl; try done.
  unfold sequential_set_value. rewrite bool_decide_false by (by apply Hno). done.
Qed.

Lemma settable_written inst prop elements w w' :
  settable inst prop w = true →
  objects w' = alter (insert prop (sequence elements)) inst (objects w) →
  settable inst prop w' = true.
Proof.
  unfold settable. intros Hw ->. rewrite lookup_alter_eq.
  destruct (objects w !! inst) as [object|]; simpl in *; [|done].
  by rewrite lookup_insert_eq.
Qed.

Lemma settable_same inst prop w w' :
  objects w' = objects w → settable inst prop w' = settable inst prop w.
Proof. unfold settable. by intros ->. Qed.

Lemma material_inverse (m : ChangeMaterialInstanceCommand) w :
  (stores_current_value (ChangeMaterial m) w →
   observably_equal (after_undo (ChangeMaterial m) w).2 w)
  ∧ observably_equal (after_redo (ChangeMaterial m) w).2
                     (after_execute (ChangeMaterial m) w).2.
Proof.
  unfold after_redo, after_undo, after_execute, observably_equal. simpl.
  unfold ChangeMaterialInstanceCommand_execute, ChangeMaterialInstanceCommand_undo,
    ChangeMaterialInstanceCommand_redo.
  destruct (applyValue (m_newValue m) m w) as [m1 w1] eqn:H1. simpl.
  destruct (applyValue (m_oldValue m1) m1 (write_log _ w1)) as [m2 w2] eqn:H2. simpl.
  destruct (applyValue (m_newValue m2) m2 (write_log _ w2)) as [m3 w3] eqn:H3. simpl.
  destruct (m_propValue m) as [|elements|bits] eqn:Hvalue.
  1,3: destruct (applyValue_ineffective (m_newValue m) m w) as (E1 & R1 & O1);
       [by rewrite Hvalue|]; rewrite H1 in E1, R1, O1; simpl in *; subst m1;
       destruct (applyValue_ineffective (m_oldValue m) m (write_log
         (TEA_INFO "[ChangeMaterialInstanceCommand] execute(): Applied new material UUID: {}"
                   [arg_uuid (m_newValue m)]) w1)) as (E2 & R2 & O2);
       [by rewrite Hvalue|]; rewrite H2 in E2, R2, O2; simpl in *; subst m2;
       destruct (applyValue_ineffective (m_newValue m) m (write_log
         (TEA_INFO "[ChangeMaterialInstanceCommand] undo(): Reverted to old material UUID: {}"
                   [arg_uuid (m_oldValue m)]) w2)) as (E3 & R3 & O3);
       [by rewrite Hvalue|]; rewrite H3 in E3, R3, O3; simpl in *;
       split; [intros _|]; split; congruence.
  destruct (decide (m_index m < length elements)) as [Hindex|Hindex].
  2: { destruct (applyValue_ineffective (m_newValue m) m w) as (E1 & R1 & O1).
       { rewrite Hvalue. by intros ? [= <-]. }
       rewrite H1 in E1, R1, O1; simpl in *; subst m1.
       destruct (applyValue_ineffective (m_oldValue m) m (write_log
         (TEA_INFO "[ChangeMaterialInstanceCommand] execute(): Applied new material UUID: {}"
                   [arg_uuid (m_newValue m)]) w1)) as (E2 & R2 & O2).
       { rewrite Hvalue. by intros ? [= <-]. }
       rewrite H2 in E2, R2, O2; simpl in *; subst m2.
       destruct (applyValue_ineffective (m_newValue m) m (write_log
         (TEA_INFO "[ChangeMaterialInstanceCommand] undo(): Reverted to old material UUID: {}"
                   [arg_uuid (m_oldValue m)]) w2)) as (E3 & R3 & O3).
       { rewrite Hvalue. by intros ? [= <-]. }
       rewrite H3 in E3, R3, O3; simpl in *.
       split; [intros _|]; split; congruence. }
  set (l1 := <[m_index m := m_newValue m]> elements).
  set (l2 := <[m_index m := m_oldValue m]> l1).
  destruct (applyValue_effective (m_newValue m) m w elements Hvalue Hindex)
    as (E1 & R1 & O1).
  rewrite H1 in E1, R1, O1. simpl in E1, R1, O1. fold l1 in E1, O1. subst m1.
  simpl in *.
  destruct (applyValue_effective (m_oldValue m) (with_propValue (sequence l1) m)
              (write_log
                 (TEA_INFO
                    "[ChangeMaterialInstanceCommand] execute(): Applied new material UUID: {}"
                    [arg_uuid (m_newValue m)]) w1) l1 eq_refl) as (E2 & R2 & O2).
  { simpl. unfold l1. by rewrite length_insert. }
  rewrite H2 in E2, R2, O2. simpl in E2, R2, O2. fold l2 in E2, O2. subst m2.
  simpl in *.
  destruct (applyValue_effective (m_newValue m)
              (with_propValue (sequence l2) (with_propValue (sequence l1) m))
              (write_log
                 (TEA_INFO
                    "[ChangeMaterialInstanceCommand] undo(): Reverted to old material UUID: {}"
                    [arg_uuid (m_oldValue m)]) w2) l2 eq_refl) as (E3 & R3 & O3).
  { simpl. unfold l2, l1. by rewrite !length_insert. }
  rewrite H3 in E3, R3, O3. simpl in E3, R3, O3.
  assert (<[m_index m := m_newValue m]> l2 = l1) as Hl3.
  { unfold l2, l1. by rewrite !list_insert_insert_eq. }
  rewrite Hl3 in O3.
  assert (l2 = <[m_index m := m_oldValue m]> elements) as Hl2.
  { unfold l2, l1. by rewrite list_insert_insert_eq. }
  rewrite (settable_same _ _ w1) in O2 by done.
  rewrite (settable_same _ _ w2) in O3 by done.
  destruct (settable (m_compInst m) (m_prop m) w) eqn:Hset.
  - assert (settable (m_compInst m) (m_prop m) w1 = true) as Hset1
      by (by apply (settable_written _ _ l1 w w1)).
    rewrite Hset1 in O2.
    assert (settable (m_compInst m) (m_prop m) w2 = true) as Hset2
      by (by apply (settable_written _ _ l2 w1 w2)).
    rewrite Hset2 in O3.
    split.
    + intros Hold. split; [congruence|]. rewrite O2, O1, alter_alter_eq.
      apply alter_id. intros object Hobject. simpl. rewrite insert_insert_eq.
      apply insert_id. unfold settable in Hset. rewrite Hobject in Hset. simpl in Hset.
      destruct (object !! m_prop m) as [[|current|]|] eqn:Hprop; try done.
      by rewrite (Hold elements object current eq_refl Hindex Hobject Hprop), Hl2.
    + split; [congruence|]. rewrite O3, O2, O1, !alter_alter_eq.
      apply alter_ext. intros object _. simpl. by rewrite !insert_insert_eq.
  - rewrite (settable_same _ _ w w1), Hset in O2 by done.
    rewrite (settable_same _ _ w w2), Hset in O3 by congruence.
    split; [intros _|]; split; congruence.
Qed.

(** *** The creation command *)

Lemma create_inverse (c : CreateEntityCommand) w :
  (stores_current_value (Create c) w → observably_equal (after_undo (Create c) w).2 w)
  ∧ observably_equal (after_redo (Create c) w).2 (after_execute (Create c) w).2.
Proof.
  unfold after_redo, after_undo, after_execute, observably_equal. simpl.
  unfold CreateEntityCommand_execute, createEntity.
  destruct (generateUUID (generator w)) as [uuid next]. simpl.
  unfold getUUID. simpl. rewrite lookup_insert_eq. simpl.
  pose proof (fresh_handle_free w) as Hfree.
  rewrite delete_insert_id by done.
  split; [done|]. split; [|done]. done.
Qed.

End CommandProperties.

(** ** The statements on the sample project *)

Section OnTheSampleProject.
Import TeaEditor Samples.

Ltac decided := apply (bool_decide_unpack _); vm_compute; exact I.

Lemma other_instances_untouched_witness :
  masterPrefabHandle (overrideComp instance_Y) ≠ 1%N
  ∧ state (updateAllPrefabInstance 1%N sample_registry) !! 1%N = Some instance_Y.
Proof.
  assert (masterPrefabHandle (overrideComp instance_Y) ≠ 1%N) as Hother
    by (vm_compute; discriminate).
  split; [exact Hother|].
  apply (other_instances_untouched 1%N sample_registry 1%N instance_Y);
    [reflexivity|exact Hother].
Defined.

Lemma malformed_master_aborts_witness :
  updateAllPrefabInstance 3%N sample_registry
  = (Some tt, sample_registry,
     [TEA_INFO "Failed to parse prefab file: {0}" [arg_string "Assets/broken.prefab"]]).
Proof.
  exact (malformed_master_aborts 3%N sample_registry "{" eq_refl eq_refl).
Defined.

(** C10 as stated fails: [Assets/null.prefab] opens, its text [null] parses
    without error, and the document that [loadPrefab] returns is Null. *)
Lemma loadPrefab_null_counterexample :
  let r := loadPrefab (S := unit) "Assets/null.prefab" tt in
  ifstream "Assets/null.prefab" = Some "null"
  ∧ reader "null" = Some kNull
  ∧ answer r = Some {| root := kNull; HasParseError := false |}
  ∧ logged r = []
  ∧ ¬ (default false (IsNull ∘ root <$> answer r) = true
       ↔ ifstream "Assets/null.prefab" = None).
Proof.
  repeat split; try reflexivity. intros [Hnull _].
  discriminate (Hnull eq_refl).
Qed.


Lemma enemy_loaded :
  ifstream (getSourceFilePath 1%N) = Some enemy_text
  ∧ reader enemy_text = Some enemy_value
  ∧ subscript enemy_value "Entity" = Some (kObject enemy_entity)
  ∧ wellFormed enemy_entity = true
  ∧ FindMember "OverrideComponent" enemy_entity = None.
Proof. repeat split; reflexivity. Defined.


Lemma sample_types_distinct : NoDup (type_name <$> sample_types).
Proof. decided. Defined.



End OnTheSampleProject.

Section OnTheSampleScene.
Import Cmd Samples.




End OnTheSampleScene.

(** * Further properties of the synchroniser and the commands *)

(** ** Prefab.cpp: what the pass leaves alone *)

Section PassFrame.
Context {variant : Type} `{!Inhabited variant} `{!Engine variant}.
Implicit Types (e : Entity variant) (registry : Registry variant).

(** When the property loop writes, everything that lines 140-150 test has
    let it pass. *)
Lemma syncProperty_written T cd prop e :
  state (syncProperty T cd prop e) = e
  ∨ (prop_name prop ≠ "Scene ID" ∧ prop_name prop ≠ "Parent"
     ∧ ∃ j, subscript cd (prop_name prop) = Some j
            ∧ accepts prop (deserializeEachProperty j (get_value T prop e)
                                                    (prop_type prop)) = true
            ∧ state (syncProperty T cd prop e)
              = alter (λ component,
                         <[prop_name prop :=
                             deserializeEachProperty j (get_value T prop e)
                                                     (prop_type prop)]> component)
                      T e).
Proof.
  unfold syncProperty. case_bool_decide as H1; [by left|].
  case_bool_decide as H2; [by left|].
  rewrite state_bind, answer_get, state_get.
  destruct (find _ _); [by left|].
  rewrite state_bind, answer_assert, state_assert.
  destruct (HasMember cd _) as [[]|]; [|by left|by left].
  rewrite state_bind, answer_assert, state_assert.
  destruct (subscript cd _) as [j|] eqn:Hj; [|by left].
  rewrite state_modify. unfold set_value.
  destruct (accepts _ _) eqn:Hacc; [|by left].
  right. split; [done|]. split; [done|]. exists j. done.
Qed.

Lemma property_loop_dom T cd props e :
  dom (state (run_for props (syncProperty T cd) e)) = dom e.
Proof.
  apply (run_for_invariant (λ e', dom e' = dom e)); [|done].
  intros prop e' _ <-.
  destruct (syncProperty_cases T cd prop e') as [->|[_ [v ->]]]; [done|].
  apply dom_alter_L.
Qed.

Lemma syncProperties_dom ed ct e : dom (state (syncProperties ed ct e)) = dom e.
Proof.
  destruct (syncProperties_cases ed ct e) as [->|(cd & _ & _ & ->)]; [done|].
  apply property_loop_dom.
Qed.

Lemma syncComponentType_scene ed ct e :
  type_name ct = "Scene ID" → state (syncComponentType ed ct e) = e.
Proof. intros Hname. unfold syncComponentType. by rewrite bool_decide_true. Qed.

(** The identity and the ledger of an instance are never detached. *)
Lemma syncComponentType_bookkeeping ed ct e N :
  N = "UUIDComponent" ∨ N = "OverrideComponent" →
  is_Some (e !! N) → is_Some (state (syncComponentType ed ct e) !! N).
Proof.
  intros HN He.
  destruct (syncComponentType_cases ed ct e) as [->|(e1 & -> & He1)]; [done|].
  apply elem_of_dom. rewrite syncProperties_dom. apply elem_of_dom.
  destruct He1 as [->|[(-> & _)|(-> & _ & _ & _ & Hu & Ho)]]; [done| |].
  - unfold addComponent. destruct (decide (type_name ct = N)) as [->|Hne].
    + rewrite lookup_insert_eq. eauto.
    + by rewrite lookup_insert_ne.
  - unfold removeComponent. rewrite lookup_delete_ne; [done|].
    intros Heq. destruct HN as [->| ->]; congruence.
Qed.

(** Hierarchy links and the scene identifier are never attached. *)
Lemma syncComponentType_links ed ct e N :
  N = "Child" ∨ N = "Parent" ∨ N = "Scene ID" →
  e !! N = None → state (syncComponentType ed ct e) !! N = None.
Proof.
  intros HN He.
  destruct (decide (type_name ct = "Scene ID")) as [Hscene|Hscene];
    [by rewrite syncComponentType_scene|].
  destruct (syncComponentType_cases ed ct e) as [->|(e1 & -> & He1)]; [done|].
  apply not_elem_of_dom. rewrite syncProperties_dom. apply not_elem_of_dom.
  destruct He1 as [->|[(-> & _ & _ & _ & Hc & Hp)|(-> & _)]]; [done| |].
  - unfold addComponent. rewrite lookup_insert_ne; [done|].
    intros Heq. destruct HN as [->|[->| ->]]; congruence.
  - unfold removeComponent. destruct (decide (type_name ct = N)) as [->|Hne].
    + by rewrite lookup_delete_eq.
    + by rewrite lookup_delete_ne.
Qed.

Lemma syncEntity_cases handle prefabPath doc e :
  state (syncEntity handle prefabPath doc e) = e
  ∨ ∃ ms, subscript (root doc) "Entity" = Some (kObject ms)
          ∧ masterPrefabHandle (overrideComp e) = handle
          ∧ state (syncEntity handle prefabPath doc e)
            = state (run_for getAllComponentTypes (syncComponentType (kObject ms)) e).
Proof.
  unfold syncEntity. rewrite state_bind, answer_get, state_get.
  case_bool_decide as Hmatch; [|by left].
  rewrite state_bind, answer_assert, state_assert.
  destruct (subscript (root doc) "Entity") as [[]|] eqn:Hentity; try (by left).
  right. eauto.
Qed.

Lemma pass_untouched body handles registry i :
  i ∉ handles →
  state (run_for handles (λ j, at_entity j body) registry) !! i = registry !! i.
Proof.
  intros Hi.
  apply (run_for_invariant (λ registry', registry' !! i = registry !! i)); [|done].
  intros j registry' Hj <-. apply at_entity_other. by intros ->.
Qed.

Lemma at_entity_dom j body registry : dom (state (at_entity j body registry)) = dom registry.
Proof.
  unfold at_entity. destruct (registry !! j) as [e|] eqn:He; [|done].
  destruct (body e) as [[r e'] out]. unfold state. simpl.
  rewrite dom_insert_lookup_L; eauto.
Qed.

(** The pass read as a loop over the view, whatever the document is. *)
Lemma updateAllPrefabInstance_cases handle registry :
  state (updateAllPrefabInstance handle registry) = registry
  ∨ ∃ doc, state (updateAllPrefabInstance handle registry)
           = state (run_for (view registry)
                      (λ j, at_entity j (syncEntity handle (getSourceFilePath handle) doc))
                      registry).
Proof.
  unfold updateAllPrefabInstance. rewrite state_bind.
  destruct (loadPrefab_state (getSourceFilePath handle) registry) as [-> [doc ->]].
  destruct (IsNull (root doc)); [by left|].
  rewrite state_bind, answer_get, state_get. right. eauto.
Qed.

(** A property of single entities that every step of the type loop keeps
    holds after the pass of every entity that had it. *)
Lemma updateAllPrefabInstance_invariant (P : Entity variant → Prop) handle registry i e :
  (∀ ed ct e', ct ∈ getAllComponentTypes → P e' → P (state (syncComponentType ed ct e'))) →
  registry !! i = Some e → P e →
  ∃ e', state (updateAllPrefabInstance handle registry) !! i = Some e' ∧ P e'.
Proof.
  intros Hstep He HP.
  destruct (updateAllPrefabInstance_cases handle registry) as [->|[doc ->]]; [by eauto|].
  apply (pass_invariant P _ _ _ i e); [|done|done].
  intros e' HP'.
  destruct (syncEntity_cases handle (getSourceFilePath handle) doc e')
    as [->|(ms & _ & _ & ->)]; [done|].
  apply (run_for_invariant P); [|done]. intros ct e'' Hct. by apply Hstep.
Qed.

(** The same for a master that was read and has an ["Entity"] object. *)
Lemma loaded_pass_invariant (P : Entity variant → Prop)
    handle registry text rootValue ms i e :
  ifstream (getSourceFilePath handle) = Some text →
  reader text = Some rootValue →
  subscript rootValue "Entity" = Some (kObject ms) →
  (∀ ct e', P e' → P (state (syncComponentType (kObject ms) ct e'))) →
  registry !! i = Some e → P e →
  ∃ e', state (updateAllPrefabInstance handle registry) !! i = Some e' ∧ P e'.
Proof.
  intros Hfile Hparse Hentity Hstep He HP.
  rewrite (updateAllPrefabInstance_loaded _ _ _ _ _ Hfile Hparse Hentity).
  apply (pass_invariant P _ _ _ i e); [|done|done].
  intros e' HP'.
  destruct (syncEntity_cases handle (getSourceFilePath handle)
              {| root := rootValue; HasParseError := false |} e')
    as [->|(ms' & Hms' & _ & ->)]; [done|].
  simpl in Hms'. rewrite Hentity in Hms'. injection Hms' as <-.
  apply (run_for_invariant P); [|done]. intros ct e'' _. by apply Hstep.
Qed.

Lemma updateAllPrefabInstance_parsed handle registry text rootValue :
  ifstream (getSourceFilePath handle) = Some text →
  reader text = Some rootValue →
  updateAllPrefabInstance handle registry
  = if IsNull rootValue then (Some tt, registry, [])
    else run_for (view registry)
           (λ entityHandle,
              at_entity entityHandle
                (syncEntity handle (getSourceFilePath handle)
                            {| root := rootValue; HasParseError := false |}))
           registry.
Proof.
  intros Hfile Hparse.
  unfold updateAllPrefabInstance, loadPrefab. rewrite Hfile.
  unfold ParseStream. rewrite Hparse. simpl.
  unfold run_bind, run_ret, run_get. simpl.
  destruct (IsNull rootValue); [done|].
  by destruct (run_for _ _ registry) as [[? ?] ?].
Qed.

Lemma run_for_constant {S A : Type} (l : list A) (body : A → Run S unit) s line :
  (∀ a, a ∈ l → body a s = (Some tt, s, [line])) →
  run_for l body s = (Some tt, s, replicate (length l) line).
Proof.
  induction l as [|a l IH]; intros Hbody; [done|].
  simpl. unfold run_bind. rewrite Hbody by left.
  rewrite IH; [done|]. intros b Hb. apply Hbody. by right.
Qed.

Lemma syncComponentType_locally_removed ms ct e cd :
  FindMember (type_name ct) ms = Some cd →
  e !! type_name ct = None →
  locallyAdded (overrideComp e) (type_name ct) = true →
  state (syncComponentType (kObject ms) ct e) = e.
Proof.
  intros Hcd He Hloc.
  destruct (syncComponentType_cases (kObject ms) ct e) as [->|(e1 & -> & He1)]; [done|].
  destruct He1 as [->|[(_ & _ & _ & Hno & _)|(_ & Hhas & _)]].
  - destruct (syncProperties_cases (kObject ms) ct e) as [->|(cd' & _ & [c Hc] & _)];
      [done|congruence].
  - congruence.
  - rewrite (HasMember_Some _ _ _ Hcd) in Hhas. done.
Qed.

Lemma syncComponentType_keeps ms ct e T cd (c : Component variant) q :
  FindMember T ms = Some cd →
  (q = "Scene ID" ∨ q = "Parent" ∨ subscript cd q = None
   ∨ ∀ prop v, prop_name prop = q → accepts prop v = false) →
  (∃ c', e !! T = Some c' ∧ c' !! q = c !! q) →
  ∃ c', state (syncComponentType (kObject ms) ct e) !! T = Some c' ∧ c' !! q = c !! q.
Proof.
  intros Hcd Hq (c0 & He & Hc0).
  destruct (decide (T = type_name ct)) as [->|Hne];
    [|rewrite syncComponentType_frame by done; by eauto].
  destruct (syncComponentType_cases (kObject ms) ct e) as [->|(e1 & -> & He1)];
    [by eauto|].
  destruct He1 as [->|[(_ & _ & Hnone & _)|(_ & Hhas & _)]].
  - destruct (syncProperties_cases (kObject ms) ct e) as [->|(cd' & Hcd' & _ & ->)];
      [by eauto|].
    simpl in Hcd'. rewrite Hcd in Hcd'. injection Hcd' as <-.
    apply (run_for_invariant
             (λ e', ∃ c', e' !! type_name ct = Some c' ∧ c' !! q = c !! q)); [|by eauto].
    intros prop e' _ (c' & He' & Hc').
    destruct (syncProperty_written (type_name ct) cd prop e')
      as [->|(H1 & H2 & j & Hj & Hacc & ->)]; [by eauto|].
    rewrite lookup_alter_eq, He'. simpl. eexists. split; [done|].
    rewrite lookup_insert_ne; [done|]. intros Heq.
    destruct Hq as [->|[->|[Hq|Hq]]]; try done.
    + rewrite <- Heq, Hj in Hq. done.
    + rewrite (Hq prop _ Heq) in Hacc. done.
  - congruence.
  - rewrite (HasMember_Some _ _ _ Hcd) in Hhas. done.
Qed.
(** On a master that was read and whose entries are objects, an entity of
    the view ends as the loop body leaves it, and any other as it was. *)
Lemma loaded_pass_lookup handle registry text rootValue ms i :
  ifstream (getSourceFilePath handle) = Some text →
  reader text = Some rootValue →
  subscript rootValue "Entity" = Some (kObject ms) →
  wellFormed ms = true →
  state (updateAllPrefabInstance handle registry) !! i
  = (λ e, if inView e
          then state (syncEntity handle (getSourceFilePath handle)
                                 {| root := rootValue; HasParseError := false |} e)
          else e) <$> registry !! i.
Proof.
  intros Hfile Hparse Hentity Hwf.
  rewrite (updateAllPrefabInstance_loaded _ _ _ _ _ Hfile Hparse Hentity).
  destruct (registry !! i) as [e|] eqn:He; simpl.
  - destruct (inView e) eqn:Hview.
    + apply pass_exact; try done.
      * intros e'. by apply (syncEntity_completes _ _ _ _ ms).
      * apply NoDup_view.
      * apply elem_of_view. eauto.
    + rewrite pass_untouched; [done|].
      intros (e' & He' & Hview')%elem_of_view. congruence.
  - rewrite pass_untouched; [done|].
    intros (e' & He' & _)%elem_of_view. congruence.
Qed.

Lemma types_loop_inView ms types e :
  inView e = true →
  inView (state (run_for types (syncComponentType (kObject ms)) e)) = true.
Proof.
  apply (run_for_invariant (λ e', inView e' = true)).
  intros ct e' _. unfold inView, hasComponent.
  intros [H1%bool_decide_eq_true H2%bool_decide_eq_true]%andb_true_iff.
  apply andb_true_iff. split; apply bool_decide_eq_true;
    apply syncComponentType_bookkeeping; auto.
Qed.
End PassFrame.

Section PassProperties.
Context {variant : Type} `{!Inhabited variant} `{!Engine variant}.
Implicit Types (e : Entity variant) (c : Component variant) (registry : Registry variant).

(** X1.  When the file of the master cannot be opened, the pass returns
    with the registry as it was, and the log holds the line that reports the
    failure to open (and nothing else). *)
Theorem unreadable_master_aborts handle registry :
  ifstream (getSourceFilePath handle) = None →
  updateAllPrefabInstance handle registry
  = (Some tt, registry,
     [TEA_INFO "Failed to open prefab file: {0}" [arg_string (getSourceFilePath handle)]]).
Proof.
  intros Hfile. unfold updateAllPrefabInstance, loadPrefab. by rewrite Hfile.
Qed.

(** X2.  When the document that was read has no ["Entity"] object (the
    member is missing or is not an object, or the root is not an object),
    no entity is changed. *)
Theorem no_entity_object_no_change handle registry text rootValue :
  ifstream (getSourceFilePath handle) = Some text →
  reader text = Some rootValue →
  (∀ ms, subscript rootValue "Entity" ≠ Some (kObject ms)) →
  state (updateAllPrefabInstance handle registry) = registry.
Proof.
  intros Hfile Hparse Hentity.
  rewrite (updateAllPrefabInstance_parsed _ _ _ _ Hfile Hparse).
  destruct (IsNull rootValue); [done|].
  apply (run_for_invariant (λ registry', registry' = registry)); [|done].
  intros j registry' _ ->. unfold at_entity.
  destruct (registry !! j) as [e|] eqn:He; [|done].
  destruct (syncEntity_cases handle (getSourceFilePath handle)
              {| root := rootValue; HasParseError := false |} e)
    as [Hsame|(ms & Hms & _)]; [|by destruct (Hentity ms)].
  destruct (syncEntity _ _ _ e) as [[r e'] out]. unfold state in *. simpl in *.
  subst e'. by apply insert_id.
Qed.

(** X3.  When no instance in the view derives from the master being
    synchronised (and the document is not Null), the registry is returned as
    it was and the log holds one line per entity of the view, saying that it
    was skipped. *)
Theorem no_matching_instance handle registry text rootValue :
  ifstream (getSourceFilePath handle) = Some text →
  reader text = Some rootValue →
  IsNull rootValue = false →
  (∀ i e, registry !! i = Some e → inView e = true →
          masterPrefabHandle (overrideComp e) ≠ handle) →
  updateAllPrefabInstance handle registry
  = (Some tt, registry,
     replicate (length (view registry))
       (TEA_INFO "Entity is not a prefab instance of {0}, so skip and check the next entity"
                 [arg_string (getSourceFilePath handle)])).
Proof.
  intros Hfile Hparse Hnull Hother.
  rewrite (updateAllPrefabInstance_parsed _ _ _ _ Hfile Hparse), Hnull.
  apply run_for_constant. intros j (e & He & Hview)%elem_of_view.
  unfold at_entity. rewrite He. unfold syncEntity, run_bind, run_get. simpl.
  rewrite bool_decide_false by eauto. simpl. by rewrite insert_id.
Qed.

(** X4.  On a master that was read and whose ["Entity"] object holds
    objects only, the pass runs to its end: no assertion of the JSON
    library stops it. *)
Theorem well_formed_master_completes handle registry text rootValue ms :
  ifstream (getSourceFilePath handle) = Some text →
  reader text = Some rootValue →
  subscript rootValue "Entity" = Some (kObject ms) →
  wellFormed ms = true →
  answer (updateAllPrefabInstance handle registry) = Some tt.
Proof.
  intros Hfile Hparse Hentity Hwf.
  rewrite (updateAllPrefabInstance_loaded _ _ _ _ _ Hfile Hparse Hentity).
  apply (run_for_completes (λ _, True)); [|done].
  intros j registry' _ _. split; [|done]. apply at_entity_completes.
  intros e. by apply (syncEntity_completes _ _ _ _ ms).
Qed.

(** X5.  On a master that was read and whose ["Entity"] object holds
    objects only, the pass is the loop body applied to each entity of the
    view on its own: what an instance becomes depends on that instance and
    the master alone, not on the other entities or on the order of the
    view. *)
Theorem pass_is_pointwise handle registry text rootValue ms :
  ifstream (getSourceFilePath handle) = Some text →
  reader text = Some rootValue →
  subscript rootValue "Entity" = Some (kObject ms) →
  wellFormed ms = true →
  state (updateAllPrefabInstance handle registry)
  = (λ e, if inView e
          then state (syncEntity handle (getSourceFilePath handle)
                                 {| root := rootValue; HasParseError := false |} e)
          else e) <$> registry.
Proof.
  intros Hfile Hparse Hentity Hwf. apply map_eq. intros i. rewrite lookup_fmap.
  by apply (loaded_pass_lookup _ _ text _ ms).
Qed.

(** X6.  The pass neither creates nor destroys an entity, and it never
    detaches a [UUIDComponent] or an [OverrideComponent]: the entities that
    the view yields after the pass are those it yielded before, whatever the
    master document holds. *)
Theorem instances_stay_instances handle registry :
  dom (state (updateAllPrefabInstance handle registry)) = dom registry
  ∧ ∀ i, i ∈ view (state (updateAllPrefabInstance handle registry)) ↔ i ∈ view registry.
Proof.
  split.
  - destruct (updateAllPrefabInstance_cases handle registry) as [->|[doc ->]]; [done|].
    apply (run_for_invariant (λ registry', dom registry' = dom registry)); [|done].
    intros j registry' _ <-. apply at_entity_dom.
  - intros i. split.
    + intros Hafter. destruct (decide (i ∈ view registry)) as [|Hno]; [done|].
      apply elem_of_view in Hafter as (e' & He' & Hview').
      destruct (updateAllPrefabInstance_cases handle registry) as [Heq|[doc Heq]];
        rewrite Heq in He'.
      * apply elem_of_view. eauto.
      * rewrite pass_untouched in He' by done. apply elem_of_view. eauto.
    + intros (e & He & Hview)%elem_of_view.
      destruct (updateAllPrefabInstance_invariant (λ e', inView e' = true)
                  handle registry i e) as (e' & He' & Hview'); try done.
      * intros ed ct e' _. unfold inView, hasComponent.
        intros [H1%bool_decide_eq_true H2%bool_decide_eq_true]%andb_true_iff.
        apply andb_true_iff. split; apply bool_decide_eq_true;
          apply syncComponentType_bookkeeping; auto.
      * apply elem_of_view. eauto.
Qed.

(** X7.  When the master has no entry for the ledger, the pass leaves the
    [OverrideComponent] of every entity as it was, however the pass ends:
    the synchroniser reads the ledger and does not write it. *)
Theorem ledger_never_written handle registry text rootValue ms i e :
  ifstream (getSourceFilePath handle) = Some text →
  reader text = Some rootValue →
  subscript rootValue "Entity" = Some (kObject ms) →
  FindMember "OverrideComponent" ms = None →
  registry !! i = Some e →
  ∃ e', state (updateAllPrefabInstance handle registry) !! i = Some e'
        ∧ e' !! "OverrideComponent" = e !! "OverrideComponent"
        ∧ overrideComp e' = overrideComp e.
Proof.
  intros Hfile Hparse Hentity Hoc He.
  destruct (loaded_pass_invariant
              (λ e', e' !! "OverrideComponent" = e !! "OverrideComponent")
              handle registry text rootValue ms i e) as (e' & He' & Hledger); try done.
  - intros ct e' <-. by apply syncComponentType_ledger.
  - exists e'. split; [done|]. split; [done|]. by apply overrideComp_ledger.
Qed.

(** X8.  The pass never attaches a component named ["Child"], ["Parent"] or
    ["Scene ID"]: an entity without it before the pass is without it after,
    whatever the master document holds. *)
Theorem links_never_attached handle registry i e N :
  N = "Child" ∨ N = "Parent" ∨ N = "Scene ID" →
  registry !! i = Some e →
  e !! N = None →
  ∃ e', state (updateAllPrefabInstance handle registry) !! i = Some e' ∧ e' !! N = None.
Proof.
  intros HN He Hnone.
  apply (updateAllPrefabInstance_invariant (λ e', e' !! N = None) handle registry i e);
    try done.
  intros ed ct e' _. by apply syncComponentType_links.
Qed.

(** X9.  A component whose type name is not among the registered component
    types, or is ["Scene ID"], is after the pass what it was before:
    neither detached nor written. *)
Theorem unregistered_components_untouched handle registry i e T :
  T ∉ type_name <$> getAllComponentTypes ∨ T = "Scene ID" →
  registry !! i = Some e →
  ∃ e', state (updateAllPrefabInstance handle registry) !! i = Some e'
        ∧ e' !! T = e !! T.
Proof.
  intros HT He.
  apply (updateAllPrefabInstance_invariant (λ e', e' !! T = e !! T) handle registry i e);
    try done.
  intros ed ct e' Hct <-.
  destruct (decide (T = type_name ct)) as [->|Hne]; [|by apply syncComponentType_frame].
  destruct HT as [HT|HT].
  - exfalso. apply HT. by apply list_elem_of_fmap_2.
  - by rewrite syncComponentType_scene.
Qed.

(** X10.  A component that the master lists, that the instance lacks and
    that the ledger's component list names (the user removed it) is not
    attached again: the instance is without it after the pass. *)
Theorem locally_removed_stays_removed handle registry text rootValue ms i e T cd :
  ifstream (getSourceFilePath handle) = Some text →
  reader text = Some rootValue →
  subscript rootValue "Entity" = Some (kObject ms) →
  FindMember "OverrideComponent" ms = None →
  registry !! i = Some e →
  FindMember T ms = Some cd →
  e !! T = None →
  T ∈ componentName <$> components (overrideComp e) →
  ∃ e', state (updateAllPrefabInstance handle registry) !! i = Some e' ∧ e' !! T = None.
Proof.
  intros Hfile Hparse Hentity Hoc He Hcd Hnone Hloc%locallyAdded_elem_of.
  destruct (loaded_pass_invariant
              (λ e', e' !! "OverrideComponent" = e !! "OverrideComponent"
                     ∧ e' !! T = None)
              handle registry text rootValue ms i e) as (e' & He' & _ & HT); try done.
  - intros ct e' [Hledger HT]. split; [by rewrite syncComponentType_ledger|].
    destruct (decide (T = type_name ct)) as [->|Hne];
      [|by rewrite syncComponentType_frame].
    rewrite (syncComponentType_locally_removed ms ct e' cd); try done.
    by rewrite (overrideComp_ledger e e').
  - eauto.
Qed.

(** X11.  Of a component that master and instance both have, the pass
    leaves a property as it was whenever the property is named
    ["Scene ID"] or ["Parent"], or the master's entry for the component does
    not define it, or the reflective set refuses every value for it --
    whatever the ledger says, and however the pass ends. *)
Theorem property_kept handle registry text rootValue ms i e T cd c q :
  ifstream (getSourceFilePath handle) = Some text →
  reader text = Some rootValue →
  subscript rootValue "Entity" = Some (kObject ms) →
  registry !! i = Some e →
  FindMember T ms = Some cd →
  e !! T = Some c →
  (q = "Scene ID" ∨ q = "Parent" ∨ subscript cd q = None
   ∨ ∀ prop v, prop_name prop = q → accepts prop v = false) →
  ∃ e' c', state (updateAllPrefabInstance handle registry) !! i = Some e'
           ∧ e' !! T = Some c' ∧ c' !! q = c !! q.
Proof.
  intros Hfile Hparse Hentity He Hcd Hc Hq.
  destruct (loaded_pass_invariant
              (λ e', ∃ c', e' !! T = Some c' ∧ c' !! q = c !! q)
              handle registry text rootValue ms i e) as (e' & He' & c' & HT & Hc');
    try done; [|by eauto|by eauto].
  intros ct e' HP. by apply (syncComponentType_keeps ms ct e' T cd c q).
Qed.
End PassProperties.

(** ** Prefab.cpp: the pass as a table, and a second pass *)

Section ReconciliationLemmas.
Context {variant : Type} `{!Inhabited variant} `{!Engine variant}.
Implicit Types (e : Entity variant) (c : Component variant) (registry : Registry variant).

Lemma syncComponentType_slot ms ct e :
  wellFormed ms = true →
  FindMember "OverrideComponent" ms = None →
  state (syncComponentType (kObject ms) ct e) !! type_name ct
  = syncedSlot (overrideComp e) ms ct (e !! type_name ct).
Proof.
  intros Hwf Hoc. unfold syncedSlot. set (T := type_name ct).
  case_bool_decide as Hscene.
  { by rewrite syncComponentType_scene. }
  destruct (FindMember T ms) as [cd|] eqn:Hcd.
  - destruct (FindMember_wellFormed _ _ _ Hwf Hcd) as [pm ->].
    assert (T ≠ "OverrideComponent") as HTne by (intros Heq; congruence).
    destruct (e !! T) as [c|] eqn:He.
    + rewrite (syncComponentType_present ms ct e pm c) by done.
      by rewrite lookup_insert_eq.
    + destruct (locallyAdded (overrideComp e) T) eqn:Hloc; simpl.
      { rewrite (syncComponentType_locally_removed ms ct e (kObject pm)) by done.
        done. }
      destruct (decide (T = "Child")) as [Hchild|Hchild].
      { rewrite bool_decide_true by done. simpl.
        apply syncComponentType_links; auto. }
      destruct (decide (T = "Parent")) as [Hparent|Hparent].
      { rewrite (bool_decide_true (T = "Parent")) by done. rewrite orb_true_r.
        apply syncComponentType_links; auto. }
      rewrite !bool_decide_false by done. simpl.
      rewrite (syncComponentType_add ms ct e pm) by done.
      by rewrite lookup_insert_eq.
  - rewrite syncComponentType_absent by done. fold T.
    destruct (decide (T = "UUIDComponent")) as [Hu|Hu].
    { rewrite bool_decide_false by (by intros (? & ? & ?)).
      rewrite (bool_decide_true (T = "UUIDComponent")) by done. simpl.
      by destruct (e !! T). }
    destruct (decide (T = "OverrideComponent")) as [Ho|Ho].
    { rewrite bool_decide_false by (by intros (? & ? & ?)).
      rewrite (bool_decide_true (T = "OverrideComponent")) by done.
      rewrite orb_true_r. simpl. by destruct (e !! T). }
    rewrite bool_decide_true by done. rewrite !bool_decide_false by done. simpl.
    destruct (locallyAdded (overrideComp e) T); simpl.
    + by destruct (e !! T).
    + unfold removeComponent. rewrite lookup_delete_eq. by destruct (e !! T).
Qed.

Lemma types_loop_slot ms types ct e :
  wellFormed ms = true →
  FindMember "OverrideComponent" ms = None →
  NoDup (type_name <$> types) → ct ∈ types →
  state (run_for types (syncComponentType (kObject ms)) e) !! type_name ct
  = syncedSlot (overrideComp e) ms ct (e !! type_name ct).
Proof.
  intros Hwf Hoc Hnd Hct.
  apply (types_loop_key ms types ct e); try done.
  intros e1 Hledger He1. rewrite syncComponentType_slot by done.
  by rewrite (overrideComp_ledger e e1), He1.
Qed.

Lemma types_loop_frame ms types e N :
  N ∉ type_name <$> types →
  state (run_for types (syncComponentType (kObject ms)) e) !! N = e !! N.
Proof.
  intros HN.
  apply (run_for_invariant (λ e', e' !! N = e !! N)); [|done].
  intros ct e' Hct <-. apply syncComponentType_frame.
  intros ->. apply HN. by apply list_elem_of_fmap_2.
Qed.

Lemma types_loop_ledger ms types e :
  FindMember "OverrideComponent" ms = None →
  overrideComp (state (run_for types (syncComponentType (kObject ms)) e))
  = overrideComp e.
Proof.
  intros Hoc. apply overrideComp_ledger.
  apply (run_for_invariant (λ e', e' !! "OverrideComponent" = e !! "OverrideComponent"));
    [|done].
  intros ct e' _ <-. by apply syncComponentType_ledger.
Qed.

(** *** Synchronising twice *)

Lemma syncedProperty_idem ledger T pm c c' prop :
  (∀ j v t, deserializeEachProperty j (deserializeEachProperty j v t) t
            = deserializeEachProperty j v t) →
  c' !! prop_name prop = syncedProperty ledger T pm c prop !! prop_name prop →
  syncedProperty ledger T pm c' prop !! prop_name prop = c' !! prop_name prop.
Proof.
  intros Hidem Hc'. unfold syncedProperty in *.
  destruct (_ || _); [done|]. destruct (FindMember _ _) as [j|]; [|done].
  destruct (accepts prop (deserializeEachProperty j (default inhabitant
              (c !! prop_name prop)) (prop_type prop))) eqn:Hacc.
  - rewrite lookup_insert_eq in Hc'. rewrite Hc'. simpl.
    rewrite Hidem, Hacc. by rewrite lookup_insert_eq.
  - rewrite Hc', Hacc. done.
Qed.

Lemma syncedComponent_key ledger T pm props : ∀ c prop,
  NoDup (prop_name <$> props) → prop ∈ props →
  syncedComponent ledger T pm props c !! prop_name prop
  = syncedProperty ledger T pm c prop !! prop_name prop.
Proof.
  unfold syncedComponent.
  induction props as [|prop' props IH]; intros c prop Hnd Hin.
  - by apply elem_of_nil in Hin.
  - simpl in *. apply NoDup_cons in Hnd as [Hfresh Hnd].
    apply elem_of_cons in Hin as [<-|Hin].
    + pose proof (syncedComponent_kept ledger T pm props) as Hkept.
      unfold syncedComponent in Hkept. by rewrite Hkept by (do 4 right; done).
    + assert (prop_name prop' ≠ prop_name prop) as Hne.
      { intros Heq. apply Hfresh. rewrite Heq. by apply list_elem_of_fmap_2. }
      rewrite (IH _ prop) by done. unfold syncedProperty at 1 3.
      rewrite (syncedProperty_other _ _ _ c prop') by done.
      destruct (_ || _); [by rewrite syncedProperty_other|].
      destruct (FindMember _ _) as [j|]; [|by rewrite syncedProperty_other].
      destruct (accepts _ _); [|by rewrite syncedProperty_other].
      by rewrite !lookup_insert_eq.
Qed.

Lemma syncedComponent_idem ledger T pm props c :
  (∀ j v t, deserializeEachProperty j (deserializeEachProperty j v t) t
            = deserializeEachProperty j v t) →
  NoDup (prop_name <$> props) →
  syncedComponent ledger T pm props (syncedComponent ledger T pm props c)
  = syncedComponent ledger T pm props c.
Proof.
  intros Hidem Hnd. apply map_eq. intros q.
  destruct (decide (q ∈ prop_name <$> props)) as [Hin|Hout].
  - apply list_elem_of_fmap in Hin as (prop & -> & Hin).
    rewrite (syncedComponent_key _ _ _ _ (syncedComponent _ _ _ _ c)) by done.
    apply (syncedProperty_idem ledger T pm c); [done|].
    by apply syncedComponent_key.
  - rewrite !syncedComponent_kept by (do 4 right; done). done.
Qed.

Lemma syncedSlot_idem ledger ms ct slot :
  (∀ j v t, deserializeEachProperty j (deserializeEachProperty j v t) t
            = deserializeEachProperty j v t) →
  NoDup (prop_name <$> type_properties ct) →
  syncedSlot ledger ms ct (syncedSlot ledger ms ct slot) = syncedSlot ledger ms ct slot.
Proof.
  intros Hidem Hnd. unfold syncedSlot.
  destruct (bool_decide (type_name ct = "Scene ID")); [done|].
  destruct (FindMember (type_name ct) ms) as [[| | | | | |pm]|], slot as [c|];
    try done.
  - by rewrite syncedComponent_idem.
  - destruct (_ || _ || _); [done|]. by rewrite syncedComponent_idem.
  - by destruct (_ || _ || _).
Qed.
End ReconciliationLemmas.

Section ReconciliationProperties.
Context {variant : Type} `{!Inhabited variant} `{!Engine variant}.
Implicit Types (e : Entity variant) (c : Component variant) (registry : Registry variant).


(** X12.  The pass as a table.  On a master that was read, whose entries
    are objects and which has no entry for the ledger, and with component
    types of distinct names: after the pass, an instance of the master has,
    in the place of each registered component type, what [syncedSlot] gives
    for the ledger, the master and what the instance had there; every other
    component is as it was. *)
Theorem pass_follows_the_table handle registry text rootValue ms i e :
  ifstream (getSourceFilePath handle) = Some text →
  reader text = Some rootValue →
  subscript rootValue "Entity" = Some (kObject ms) →
  wellFormed ms = true →
  FindMember "OverrideComponent" ms = None →
  NoDup (type_name <$> getAllComponentTypes) →
  registry !! i = Some e →
  inView e = true →
  masterPrefabHandle (overrideComp e) = handle →
  ∃ e', state (updateAllPrefabInstance handle registry) !! i = Some e'
        ∧ (∀ ct, ct ∈ getAllComponentTypes →
                 e' !! type_name ct
                 = syncedSlot (overrideComp e) ms ct (e !! type_name ct))
        ∧ (∀ N, N ∉ type_name <$> getAllComponentTypes → e' !! N = e !! N).
Proof.
  intros Hfile Hparse Hentity Hwf Hoc Hnd He Hview Hmatch.
  rewrite (loaded_pass_lookup _ _ _ _ ms i Hfile Hparse Hentity Hwf), He.
  simpl. rewrite Hview.
  rewrite (syncEntity_match _ _ _ _ ms) by done.
  eexists. split; [done|]. split.
  - intros ct Hct. by apply types_loop_slot.
  - intros N HN. by apply types_loop_frame.
Qed.

(** X13.  Synchronising twice is synchronising once.  On a master that was
    read, whose entries are objects and which has no entry for the ledger,
    with component types of distinct names, each with properties of distinct
    names, and a deserialiser that gives back a value it produced when it is
    run on that value again: a second pass of the same master leaves the
    registry that the first pass gave. *)
Theorem synchronising_twice handle registry text rootValue ms :
  ifstream (getSourceFilePath handle) = Some text →
  reader text = Some rootValue →
  subscript rootValue "Entity" = Some (kObject ms) →
  wellFormed ms = true →
  FindMember "OverrideComponent" ms = None →
  NoDup (type_name <$> getAllComponentTypes) →
  (∀ ct, ct ∈ getAllComponentTypes → NoDup (prop_name <$> type_properties ct)) →
  (∀ j v t, deserializeEachProperty j (deserializeEachProperty j v t) t
            = deserializeEachProperty j v t) →
  state (updateAllPrefabInstance handle (state (updateAllPrefabInstance handle registry)))
  = state (updateAllPrefabInstance handle registry).
Proof.
  intros Hfile Hparse Hentity Hwf Hoc HndT HndP Hidem.
  set (doc := {| root := rootValue; HasParseError := false |}).
  assert (∀ registry',
            state (updateAllPrefabInstance handle registry')
            = (λ e, if inView e
                    then state (syncEntity handle (getSourceFilePath handle) doc e)
                    else e) <$> registry') as Hpass.
  { intros registry'. apply map_eq. intros i. rewrite lookup_fmap.
    by apply (loaded_pass_lookup _ _ text _ ms). }
  rewrite !Hpass.
  rewrite <- map_fmap_compose. apply map_fmap_ext. intros i e He. simpl.
  destruct (inView e) eqn:Hview; [|by rewrite Hview].
  destruct (decide (masterPrefabHandle (overrideComp e) = handle)) as [Hmatch|Hother].
  - rewrite (syncEntity_match _ _ _ e ms) by done.
    set (e1 := state (run_for getAllComponentTypes (syncComponentType (kObject ms)) e)).
    assert (overrideComp e1 = overrideComp e) as Hledger
      by (by apply types_loop_ledger).
    assert (inView e1 = true) as Hview1 by (by apply types_loop_inView).
    rewrite Hview1.
    rewrite (syncEntity_match _ _ _ e1 ms) by (by rewrite ?Hledger).
    apply map_eq. intros N.
    destruct (decide (N ∈ type_name <$> getAllComponentTypes)) as [Hin|Hout].
    + apply list_elem_of_fmap in Hin as (ct & -> & Hct).
      rewrite types_loop_slot by done. rewrite Hledger. unfold e1.
      rewrite types_loop_slot by done. apply syncedSlot_idem; auto.
    + by rewrite types_loop_frame.
  - rewrite (syncEntity_other _ _ _ e) by done. rewrite Hview.
    by rewrite syncEntity_other.
Qed.
End ReconciliationProperties.

(** ** UndoRedo.cpp: whole histories *)

Section HistoryLemmas.
Import Cmd Cmd.CommandManager History.
Context {World C : Type} `{!Command World C}.
Implicit Types (cmd : C) (manager : CommandManager.t C) (world : World).

Lemma undo_times_S n manager world :
  undo_times (S n) manager world
  = CommandManager.undo (undo_times n manager world).1 (undo_times n manager world).2.
Proof.
  revert manager world. induction n as [|n IH]; intros manager world.
  - simpl. by destruct (CommandManager.undo manager world).
  - change (undo_times (S (S n)) manager world)
      with (let '(m, w) := CommandManager.undo manager world in undo_times (S n) m w).
    destruct (CommandManager.undo manager world) as [m w] eqn:Hundo.
    rewrite IH. simpl. by rewrite Hundo.
Qed.

Lemma submit_all_undoStack cmds manager world :
  length (undoStack (submit_all cmds manager world).1)
  = length cmds + length (undoStack manager).
Proof.
  revert manager world. induction cmds as [|cmd cmds IH]; intros manager world; [done|].
  simpl. unfold executeCommand. destruct (execute cmd world) as [cmd' world'].
  rewrite IH. simpl. lia.
Qed.
End HistoryLemmas.

Section StackDiscipline.
Import Cmd Cmd.CommandManager History.
Context {C : Type}.
Implicit Types (cmd : C) (cmds : list C) (calls : list (Call C)).

Lemma recorder_submit_all cmds undos redos calls :
  cmds ≠ [] ∨ redos = [] →
  @submit_all _ _ (recorder C) cmds {| undoStack := undos; redoStack := redos |} calls
  = ({| undoStack := reverse cmds ++ undos; redoStack := [] |},
     calls ++ (called_execute <$> cmds)).
Proof.
  revert undos redos calls.
  induction cmds as [|cmd cmds IH]; intros undos redos calls Hnonempty.
  - destruct Hnonempty as [ | -> ]; [done|]. simpl. by rewrite app_nil_r.
  - simpl. rewrite pop_all_empty, IH by auto.
    by rewrite reverse_cons, <- !app_assoc.
Qed.

Lemma recorder_undo_times n undos redos calls :
  @undo_times _ _ (recorder C) n {| undoStack := undos; redoStack := redos |} calls
  = ({| undoStack := drop n undos; redoStack := reverse (take n undos) ++ redos |},
     calls ++ (called_undo <$> take n undos)).
Proof.
  revert undos redos calls. induction n as [|n IH]; intros undos redos calls.
  - simpl. by rewrite drop_0, app_nil_r.
  - destruct undos as [|cmd undos]; simpl.
    + rewrite IH. simpl. by rewrite take_nil, drop_nil, !app_nil_r.
    + rewrite IH. simpl. by rewrite reverse_cons, <- !app_assoc.
Qed.

Lemma recorder_redo_times n undos redos calls :
  @redo_times _ _ (recorder C) n {| undoStack := undos; redoStack := redos |} calls
  = ({| undoStack := reverse (take n redos) ++ undos; redoStack := drop n redos |},
     calls ++ (called_redo <$> take n redos)).
Proof.
  revert undos redos calls. induction n as [|n IH]; intros undos redos calls.
  - simpl. by rewrite drop_0, app_nil_r.
  - destruct redos as [|cmd redos]; simpl.
    + rewrite IH. simpl. by rewrite take_nil, drop_nil, !app_nil_r.
    + rewrite IH. simpl. by rewrite reverse_cons, <- !app_assoc.
Qed.

(** X14.  Stack discipline, observed through commands that record their
    calls: after the commands of a list were submitted to a manager without
    history, [n] undos call [undo] on the last [n] commands, the last
    submitted first, and [n] redos then call [redo] on the same commands in
    the order of their submission and give back the manager reached after the
    submits.  Undos beyond the history call nothing. *)
Theorem stack_discipline cmds n calls :
  let empty := {| undoStack := []; redoStack := [] |} in
  let submitted := @submit_all _ _ (recorder C) cmds empty calls in
  let undone := @undo_times _ _ (recorder C) n submitted.1 submitted.2 in
  let redone := @redo_times _ _ (recorder C) n undone.1 undone.2 in
  submitted = ({| undoStack := reverse cmds; redoStack := [] |},
               calls ++ (called_execute <$> cmds))
  ∧ undone.2 = submitted.2 ++ (called_undo <$> take n (reverse cmds))
  ∧ redone.2 = undone.2 ++ (called_redo <$> reverse (take n (reverse cmds)))
  ∧ redone.1 = submitted.1.
Proof.
  cbv zeta. rewrite recorder_submit_all by auto. simpl.
  rewrite recorder_undo_times. simpl. rewrite recorder_redo_times. simpl.
  rewrite !app_nil_r.
  assert (take n (reverse (take n (reverse cmds))) = reverse (take n (reverse cmds)))
    as Htake.
  { apply take_ge. rewrite length_reverse, length_take. lia. }
  assert (drop n (reverse (take n (reverse cmds))) = []) as Hdrop.
  { apply drop_ge. rewrite length_reverse, length_take. lia. }
  rewrite Htake, Hdrop, reverse_involutive, take_drop. done.
Qed.
End StackDiscipline.

Section ConcreteHistory.
Import Cmd Cmd.CommandManager History.
Context `{!Scene}.
Implicit Types (w : World) (manager : CommandManager.t AnyCommand) (c : AnyCommand).

Lemma observably_equal_refl w : observably_equal w w.
Proof. by split. Qed.

Lemma observably_equal_sym w1 w2 : observably_equal w1 w2 → observably_equal w2 w1.
Proof. unfold observably_equal. by intros [-> ->]. Qed.

Lemma observably_equal_trans w1 w2 w3 :
  observably_equal w1 w2 → observably_equal w2 w3 → observably_equal w1 w3.
Proof. unfold observably_equal. by intros [-> ->] [-> ->]. Qed.

(** What [applyValue] leaves, in all its cases. *)
Lemma applyValue_result val (m : ChangeMaterialInstanceCommand) w :
  let r := applyValue val m w in
  r.1 = match m_propValue m with
        | sequence elements =>
            if bool_decide (m_index m < length elements)
            then with_propValue (sequence (<[m_index m := val]> elements)) m
            else m
        | _ => m
        end
  ∧ registry r.2 = registry w
  ∧ generator r.2 = generator w
  ∧ objects r.2
    = match m_propValue m with
      | sequence elements =>
          if applicable m w
          then alter (insert (m_prop m) (sequence (<[m_index m := val]> elements)))
                     (m_compInst m) (objects w)
          else objects w
      | _ => objects w
      end.
Proof.
  unfold applyValue, applicable.
  destruct (m_propValue m) as [|elements|]; simpl; try done.
  unfold sequential_set_value. case_bool_decide; simpl; [|done].
  rewrite property_set_value_sequence. by destruct (settable _ _ w).
Qed.

Lemma applicable_same (m : ChangeMaterialInstanceCommand) w1 w2 :
  objects w1 = objects w2 → applicable m w1 = applicable m w2.
Proof.
  intros Hobjects. unfold applicable.
  destruct (m_propValue m); try done. by rewrite (settable_same _ _ w2 w1).
Qed.

Lemma applyValue_congruence val (m : ChangeMaterialInstanceCommand) w1 w2 :
  observably_equal w1 w2 →
  (applyValue val m w1).1 = (applyValue val m w2).1
  ∧ observably_equal (applyValue val m w1).2 (applyValue val m w2).2.
Proof.
  intros [Hregistry Hobjects].
  destruct (applyValue_result val m w1) as (C1 & R1 & _ & O1).
  destruct (applyValue_result val m w2) as (C2 & R2 & _ & O2).
  split; [congruence|]. split; [congruence|].
  rewrite O1, O2, (applicable_same m w1 w2), Hobjects by done. done.
Qed.

Lemma registry_transform_log fmt t pos rot scl w :
  registry (transform_log fmt t pos rot scl w) = registry w.
Proof. done. Qed.

Lemma objects_transform_log fmt t pos rot scl w :
  objects (transform_log fmt t pos rot scl w) = objects w.
Proof. done. Qed.

Lemma applyTransform_congruence t pos rot scl w1 w2 :
  observably_equal w1 w2 →
  observably_equal (applyTransform t pos rot scl w1) (applyTransform t pos rot scl w2).
Proof.
  intros [Hregistry Hobjects]. split.
  - rewrite !applyTransform_registry. by rewrite Hregistry.
  - by rewrite !applyTransform_objects.
Qed.

Lemma undo_congruence c w1 w2 :
  observably_equal w1 w2 →
  (Cmd.undo c w1).1 = (Cmd.undo c w2).1 ∧ observably_equal (Cmd.undo c w1).2 (Cmd.undo c w2).2.
Proof.
  intros Heq. destruct c as [c|t|m]; simpl.
  - split; [done|]. destruct Heq as [Hregistry Hobjects].
    unfold CreateEntityCommand_undo, observably_equal. simpl.
    destruct (create_m_entity c); simpl; by rewrite ?Hregistry, ?Hobjects.
  - split; [done|]. by apply applyTransform_congruence.
  - unfold ChangeMaterialInstanceCommand_undo.
    destruct (applyValue_congruence (m_oldValue m) m w1 w2 Heq) as [Hc Hw].
    destruct (applyValue (m_oldValue m) m w1) as [c1 v1].
    destruct (applyValue (m_oldValue m) m w2) as [c2 v2]. simpl in *.
    split; [congruence|]. done.
Qed.

Lemma redo_congruence c w1 w2 :
  observably_equal w1 w2 →
  (Cmd.redo c w1).1 = (Cmd.redo c w2).1 ∧ observably_equal (Cmd.redo c w1).2 (Cmd.redo c w2).2.
Proof.
  intros Heq. destruct c as [c|t|m]; simpl.
  - destruct Heq as [Hregistry Hobjects].
    unfold CreateEntityCommand_redo, createEntityWithUUID, observably_equal. simpl.
    by rewrite Hregistry, Hobjects.
  - split; [done|]. by apply applyTransform_congruence.
  - unfold ChangeMaterialInstanceCommand_redo.
    destruct (applyValue_congruence (m_newValue m) m w1 w2 Heq) as [Hc Hw].
    destruct (applyValue (m_newValue m) m w1) as [c1 v1].
    destruct (applyValue (m_newValue m) m w2) as [c2 v2]. simpl in *.
    split; [congruence|]. done.
Qed.

Lemma after_undo_eq c w :
  after_undo c w = Cmd.undo (execute c w).1 (execute c w).2.
Proof. unfold after_undo, after_execute. by destruct (execute c w). Qed.

Lemma after_redo_eq c w :
  after_redo c w = Cmd.redo (after_undo c w).1 (after_undo c w).2.
Proof. unfold after_redo. by destruct (after_undo c w). Qed.

Lemma undo_after_execute c w :
  stores_current_value c w →
  observably_equal (Cmd.undo (execute c w).1 (execute c w).2).2 w.
Proof.
  intros Hold. rewrite <- after_undo_eq. revert Hold. destruct c as [c|t|m].
  - apply create_inverse.
  - apply transform_inverse.
  - apply material_inverse.
Qed.

Lemma redo_after_undo c w :
  observably_equal (after_redo c w).2 (execute c w).2.
Proof.
  destruct c as [c|t|m].
  - apply create_inverse.
  - apply transform_inverse.
  - apply material_inverse.
Qed.

Local Opaque AnyCommand_Command.

Lemma submit_all_cons c cmds manager w :
  submit_all (c :: cmds) manager w
  = submit_all cmds
      {| undoStack := (execute c w).1 :: undoStack manager; redoStack := [] |}
      (execute c w).2.
Proof.
  simpl. unfold executeCommand. rewrite pop_all_empty. by destruct (execute c w).
Qed.

Lemma manager_undo_cons c rest manager w :
  undoStack manager = c :: rest →
  CommandManager.undo manager w
  = ({| undoStack := rest; redoStack := (Cmd.undo c w).1 :: redoStack manager |},
     (Cmd.undo c w).2).
Proof.
  intros Hstack. unfold CommandManager.undo. rewrite Hstack.
  by destruct (Cmd.undo c w).
Qed.

Lemma manager_redo_cons c rest manager w :
  redoStack manager = c :: rest →
  CommandManager.redo manager w
  = ({| undoStack := (Cmd.redo c w).1 :: undoStack manager; redoStack := rest |},
     (Cmd.redo c w).2).
Proof.
  intros Hstack. unfold CommandManager.redo. rewrite Hstack.
  by destruct (Cmd.redo c w).
Qed.

Lemma redo_times_S n manager w :
  redo_times (S n) manager w
  = redo_times n (CommandManager.redo manager w).1 (CommandManager.redo manager w).2.
Proof. simpl. by destruct (CommandManager.redo manager w). Qed.

Lemma history_round_trip cmds : ∀ manager w,
  valid_history cmds w →
  let submitted := submit_all cmds manager w in
  let undone := undo_times (length cmds) submitted.1 submitted.2 in
  observably_equal undone.2 w
  ∧ undoStack undone.1 = undoStack manager
  ∧ ∃ undoneCmds,
      length undoneCmds = length cmds
      ∧ redoStack undone.1 = undoneCmds ++ redoStack submitted.1
      ∧ ∀ manager' w' rest,
          observably_equal w' undone.2 →
          redoStack manager' = undoneCmds ++ rest →
          let redone := redo_times (length cmds) manager' w' in
          observably_equal redone.2 submitted.2
          ∧ redoStack redone.1 = rest
          ∧ length (undoStack redone.1) = length cmds + length (undoStack manager').
Proof.
  induction cmds as [|c cmds IH]; intros manager w Hvalid; cbv zeta.
  - simpl. split; [apply observably_equal_refl|]. split; [done|].
    exists []. split; [done|]. split; [done|].
    intros manager' w' rest Hw' Hrest. simpl in *. done.
  - destruct Hvalid as [Hold Hvalid]. rewrite submit_all_cons.
    set (c1 := (execute c w).1) in *. set (w1 := (execute c w).2) in *.
    set (manager1 := {| undoStack := c1 :: undoStack manager; redoStack := [] |}).
    destruct (IH manager1 w1 Hvalid)
      as (Hback & Hstack & undoneCmds & Hlen & Hredos & Hredo).
    clear IH. cbv zeta in Hback, Hstack, Hredos, Hredo.
    set (submitted := submit_all cmds manager1 w1) in *.
    change (length (c :: cmds)) with (S (length cmds)).
    rewrite undo_times_S.
    set (undone := undo_times (length cmds) submitted.1 submitted.2) in *.
    rewrite (manager_undo_cons c1 (undoStack manager) undone.1 undone.2 Hstack).
    cbn [fst snd undoStack redoStack].
    destruct (undo_congruence c1 undone.2 w1 Hback) as [Hsame Hequal].
    set (c2 := (Cmd.undo c1 undone.2).1) in *.
    set (w2 := (Cmd.undo c1 undone.2).2) in *.
    assert (observably_equal w2 w) as Hw2.
    { apply (observably_equal_trans _ _ _ Hequal). by apply undo_after_execute. }
    split; [done|]. split; [done|].
    exists (c2 :: undoneCmds). split; [simpl; by rewrite Hlen|].
    split; [by rewrite Hredos|].
    intros manager' w' rest Hw' Hrest.
    rewrite redo_times_S.
    rewrite (manager_redo_cons c2 (undoneCmds ++ rest) manager' w' Hrest).
    cbn [fst snd].
    set (c3 := (Cmd.redo c2 w').1). set (w3 := (Cmd.redo c2 w').2).
    assert (observably_equal w3 undone.2) as Hw3.
    { apply (observably_equal_trans _ w1); [|by apply observably_equal_sym].
      assert (observably_equal w' (Cmd.undo c1 w1).2) as Hw''
        by (by apply (observably_equal_trans _ w2)).
      destruct (redo_congruence c2 _ _ Hw'') as [_ Hstep].
      apply (observably_equal_trans _ _ _ Hstep).
      pose proof (redo_after_undo c w) as Hlaw.
      rewrite after_redo_eq, after_undo_eq in Hlaw.
      fold c1 w1 in Hlaw. rewrite <- Hsame in Hlaw. done. }
    destruct (Hredo {| undoStack := c3 :: undoStack manager';
                       redoStack := undoneCmds ++ rest |} w3 rest Hw3 eq_refl)
      as (Hforth & Hrest' & Hundos).
    split; [done|]. split; [done|]. rewrite Hundos.
    cbn [undoStack length]. lia.
Qed.

Local Transparent AnyCommand_Command.
End ConcreteHistory.

Section HistoryProperties.
Import Cmd Cmd.CommandManager History.
Context `{!Scene}.
Implicit Types (w : World) (manager : CommandManager.t AnyCommand) (c : AnyCommand).


(** X16.  Redoing a whole history of transform and material commands.
    Under the same condition, for a list without [CreateEntityCommand]
    (which entity handle a re-created entity gets is the scene manager's
    business): calling [redo] once per command after the undos gives back
    the entities and reflected objects that the submits had given; the redo
    stack is what it was after the submits and the undo stack is as long as
    it was then. *)
Theorem redo_all_restores cmds manager w :
  (∀ c, c ∈ cmds → ∀ created, c ≠ Create created) →
  valid_history cmds w →
  let submitted := submit_all cmds manager w in
  let undone := undo_times (length cmds) submitted.1 submitted.2 in
  let redone := redo_times (length cmds) undone.1 undone.2 in
  observably_equal redone.2 submitted.2
  ∧ redoStack redone.1 = redoStack submitted.1
  ∧ length (undoStack redone.1) = length (undoStack submitted.1).
Proof.
  intros _ Hvalid.
  destruct (history_round_trip cmds manager w Hvalid)
    as (Hback & Hstack & undoneCmds & Hlen & Hredos & Hredo).
  cbv zeta in *.
  destruct (Hredo _ _ _ (observably_equal_refl _) Hredos) as (Hforth & Hrest & Hundos).
  split; [done|]. split; [done|].
  rewrite Hundos, Hstack, submit_all_undoStack. done.
Qed.
End HistoryProperties.

(** ** UndoRedo.cpp: what the commands touch *)

Section TransformProperties.
Import Cmd Cmd.CommandManager History.
Context `{!Scene}.
Implicit Types (w : World) (t : TransformEntityCommand).

Lemma moved_uuid pos rot scl data :
  uuidComponent (moved pos rot scl data) = uuidComponent data.
Proof. unfold moved. by case_bool_decide. Qed.

Lemma moved_has_transform pos rot scl data :
  is_Some (transformComponent (moved pos rot scl data))
  ↔ is_Some (transformComponent data).
Proof.
  unfold moved. case_bool_decide as Hsome; [|done]. simpl. split; eauto.
Qed.

Lemma applyTransform_frame t pos rot scl w :
  let w' := applyTransform t pos rot scl w in
  objects w' = objects w
  ∧ generator w' = generator w
  ∧ logger w' = logger w
  ∧ dom (registry w') = dom (registry w)
  ∧ (∀ handle, transform_m_entity t ≠ Some handle →
               registry w' !! handle = registry w !! handle)
  ∧ (∀ handle, uuidComponent <$> registry w' !! handle
               = uuidComponent <$> registry w !! handle)
  ∧ (∀ handle, is_Some (registry w' !! handle ≫= transformComponent)
               ↔ is_Some (registry w !! handle ≫= transformComponent))
  ∧ (hasTransform (transform_m_entity t) w = false → registry w' = registry w).
Proof.
  cbv zeta. split; [apply applyTransform_objects|].
  split; [unfold applyTransform; by repeat case_match|].
  split; [unfold applyTransform; by repeat case_match|].
  rewrite applyTransform_registry.
  destruct (transform_m_entity t) as [target|] eqn:Htarget.
  - split; [apply dom_alter_L|].
    split; [intros handle Hne; apply lookup_alter_ne; congruence|].
    split; [|split].
    + intros handle. destruct (decide (target = handle)) as [->|Hne].
      * rewrite lookup_alter_eq. destruct (registry w !! handle); simpl; [|done].
        by rewrite moved_uuid.
      * by rewrite lookup_alter_ne.
    + intros handle. destruct (decide (target = handle)) as [->|Hne].
      * rewrite lookup_alter_eq. destruct (registry w !! handle); simpl; [|done].
        apply moved_has_transform.
      * by rewrite lookup_alter_ne.
    + unfold hasTransform. simpl. intros Hstale.
      apply map_eq. intros handle. destruct (decide (target = handle)) as [->|Hne].
      * rewrite lookup_alter_eq.
        destruct (registry w !! handle) as [data|]; simpl in *; [|done].
        unfold moved. by rewrite Hstale.
      * by rewrite lookup_alter_ne.
  - repeat split; done.
Qed.

(** X17.  What a [TransformEntityCommand] leaves alone.  Each of [execute],
    [undo] and [redo] keeps the command as it is, the reflected objects and
    the identifier generator; it creates and destroys no entity, changes no
    entity but its target, keeps every identifier, and gives no transform to
    an entity that has none.  When the target handle is null or stale, or
    the target has no transform, no entity changes at all.  Every call adds
    one line to the log. *)
Theorem transform_touches_target_only t w :
  Forall (λ r : AnyCommand * World,
            r.1 = Transforming t
            ∧ objects r.2 = objects w
            ∧ generator r.2 = generator w
            ∧ dom (registry r.2) = dom (registry w)
            ∧ (∀ handle, transform_m_entity t ≠ Some handle →
                         registry r.2 !! handle = registry w !! handle)
            ∧ (∀ handle, uuidComponent <$> registry r.2 !! handle
                         = uuidComponent <$> registry w !! handle)
            ∧ (∀ handle, is_Some (registry r.2 !! handle ≫= transformComponent)
                         ↔ is_Some (registry w !! handle ≫= transformComponent))
            ∧ (hasTransform (transform_m_entity t) w = false →
               registry r.2 = registry w)
            ∧ ∃ line, logger r.2 = logger w ++ [line])
         [execute (Transforming t) w; Cmd.undo (Transforming t) w;
          Cmd.redo (Transforming t) w].
Proof.
  repeat apply Forall_cons_2; [..|apply Forall_nil_2];
    (split; [done|]); simpl;
    match goal with
    | |- context [applyTransform t ?pos ?rot ?scl w] =>
        destruct (applyTransform_frame t pos rot scl w)
          as (Ho & Hg & Hl & Hd & Hother & Hu & Ht & Hstale)
    end;
    cbv zeta in *;
    (split; [done|]); (split; [done|]); (split; [done|]); (split; [done|]);
    (split; [done|]); (split; [done|]); (split; [done|]);
    rewrite Hl; eauto.
Qed.

(** X18.  What a [TransformEntityCommand] writes.  On a target that has a
    transform, [execute] and [redo] set position, rotation and scale to the
    new values the command stores, and [undo] sets them to the old values it
    stores, whatever the transform was. *)
Theorem transform_applies_stored_values t w handle data :
  transform_m_entity t = Some handle →
  registry w !! handle = Some data →
  is_Some (transformComponent data) →
  let new := {| position := m_newPosition t; rotation := m_newRotation t;
                scale := m_newScale t |} in
  let old := {| position := m_oldPosition t; rotation := m_oldRotation t;
                scale := m_oldScale t |} in
  registry (execute (Transforming t) w).2 !! handle ≫= transformComponent = Some new
  ∧ registry (Cmd.undo (Transforming t) w).2 !! handle ≫= transformComponent = Some old
  ∧ registry (Cmd.redo (Transforming t) w).2 !! handle ≫= transformComponent = Some new.
Proof.
  intros Htarget Hdata Hsome. simpl.
  rewrite !applyTransform_registry, Htarget, !lookup_alter_eq, Hdata. simpl.
  unfold moved. by rewrite bool_decide_true.
Qed.
End TransformProperties.

Section MaterialProperties.
Import Cmd Cmd.CommandManager History.
Context `{!Scene}.
Implicit Types (w : World) (m : ChangeMaterialInstanceCommand).





End MaterialProperties.

(** ** On the variations of the sample project *)

Section OnTheVariations.
Import TeaEditor Samples Variations.

Ltac decided := apply (bool_decide_unpack _); vm_compute; exact I.

Lemma unreadable_master_aborts_witness :
  updateAllPrefabInstance 4%N sample_registry
  = (Some tt, sample_registry,
     [TEA_INFO "Failed to open prefab file: {0}" [arg_string "Assets/missing.prefab"]]).
Proof. exact (unreadable_master_aborts 4%N sample_registry eq_refl). Defined.

Lemma ledger_never_written_witness :
  ∃ e', state (updateAllPrefabInstance 1%N sample_registry) !! 0%N = Some e'
        ∧ e' !! "OverrideComponent" = Some (ledger 1 ["RigidBody"] ["Transform/position"])
        ∧ overrideComp e' = overrideComp instance_X.
Proof.
  destruct enemy_loaded as (Hfile & Hparse & Hentity & Hwf & Hoc).
  exact (ledger_never_written 1%N sample_registry enemy_text enemy_value enemy_entity
           0%N instance_X Hfile Hparse Hentity Hoc eq_refl).
Defined.

Lemma links_never_attached_witness :
  FindMember "Parent" enemy_entity = Some (kObject [("Parent", kNumber 42)])
  ∧ ∃ e', state (updateAllPrefabInstance 1%N second_registry) !! 0%N = Some e'
          ∧ e' !! "Parent" = None.
Proof.
  split; [reflexivity|].
  exact (links_never_attached 1%N second_registry 0%N instance_W "Parent"
           (or_intror (or_introl eq_refl)) eq_refl eq_refl).
Defined.

Lemma unregistered_components_untouched_witness :
  ∃ e', state (updateAllPrefabInstance 1%N second_registry) !! 0%N = Some e'
        ∧ e' !! "Script" = Some {[ "file" := kString "patrol.lua" ]}.
Proof.
  refine (unregistered_components_untouched 1%N second_registry 0%N instance_W "Script"
            (or_introl _) eq_refl).
  decided.
Defined.

Lemma no_entity_object_no_change_witness :
  state (@updateAllPrefabInstance _ _ flat_engine 1%N sample_registry) = sample_registry.
Proof.
  refine (@no_entity_object_no_change _ _ flat_engine 1%N sample_registry flat_text
            flat_value eq_refl eq_refl _).
  intros ms. discriminate.
Defined.

Lemma well_formed_master_completes_witness :
  answer (updateAllPrefabInstance 1%N sample_registry) = Some tt.
Proof.
  destruct enemy_loaded as (Hfile & Hparse & Hentity & Hwf & Hoc).
  exact (well_formed_master_completes 1%N sample_registry enemy_text enemy_value
           enemy_entity Hfile Hparse Hentity Hwf).
Defined.

Lemma no_matching_instance_witness :
  updateAllPrefabInstance 1%N other_registry
  = (Some tt, other_registry,
     replicate 1
       (TEA_INFO "Entity is not a prefab instance of {0}, so skip and check the next entity"
                 [arg_string "Assets/enemy.prefab"])).
Proof.
  refine (no_matching_instance 1%N other_registry enemy_text enemy_value
            eq_refl eq_refl eq_refl _).
  assert (map_Forall (λ (_ : entt_entity) (e : Entity Value),
                        inView e = true → masterPrefabHandle (overrideComp e) ≠ 1%N)
                     other_registry) as Hall by decided.
  intros i e He. exact (map_Forall_lookup_1 _ _ i e Hall He).
Defined.

Lemma pass_is_pointwise_witness :
  state (updateAllPrefabInstance 1%N second_registry)
  = (λ e, if inView e
          then state (syncEntity 1%N "Assets/enemy.prefab"
                                 {| root := enemy_value; HasParseError := false |} e)
          else e) <$> second_registry.
Proof.
  destruct enemy_loaded as (Hfile & Hparse & Hentity & Hwf & Hoc).
  exact (pass_is_pointwise 1%N second_registry enemy_text enemy_value enemy_entity
           Hfile Hparse Hentity Hwf).
Defined.

Lemma locally_removed_stays_removed_witness :
  ∃ e', state (updateAllPrefabInstance 1%N second_registry) !! 0%N = Some e'
        ∧ e' !! "Tag" = None.
Proof.
  destruct enemy_loaded as (Hfile & Hparse & Hentity & Hwf & Hoc).
  refine (locally_removed_stays_removed 1%N second_registry enemy_text enemy_value
            enemy_entity 0%N instance_W "Tag" (kObject [("name", kString "Enemy")])
            Hfile Hparse Hentity Hoc eq_refl eq_refl eq_refl _).
  decided.
Defined.

Lemma property_kept_witness :
  ∃ e' c', state (updateAllPrefabInstance 1%N sample_registry) !! 0%N = Some e'
           ∧ e' !! "Transform" = Some c' ∧ c' !! "rotation" = Some ones.
Proof.
  destruct enemy_loaded as (Hfile & Hparse & Hentity & Hwf & Hoc).
  exact (property_kept 1%N sample_registry enemy_text enemy_value enemy_entity
           0%N instance_X "Transform" (kObject enemy_transform)
           {[ "position" := ones; "rotation" := ones; "scale" := ones ]} "rotation"
           Hfile Hparse Hentity eq_refl eq_refl eq_refl
           (or_intror (or_intror (or_introl eq_refl)))).
Defined.

Lemma sample_properties_distinct ct :
  ct ∈ sample_types → NoDup (prop_name <$> type_properties ct).
Proof.
  apply (proj1 (Forall_forall (λ ct, NoDup (prop_name <$> type_properties ct))
                  sample_types)).
  decided.
Defined.

Lemma pass_follows_the_table_witness :
  ∃ e', state (updateAllPrefabInstance 1%N second_registry) !! 0%N = Some e'
        ∧ (∀ ct, ct ∈ sample_types →
                 e' !! type_name ct
                 = syncedSlot (overrideComp instance_W) enemy_entity ct
                              (instance_W !! type_name ct))
        ∧ (∀ N, N ∉ type_name <$> sample_types → e' !! N = instance_W !! N).
Proof.
  destruct enemy_loaded as (Hfile & Hparse & Hentity & Hwf & Hoc).
  exact (pass_follows_the_table 1%N second_registry enemy_text enemy_value enemy_entity
           0%N instance_W Hfile Hparse Hentity Hwf Hoc sample_types_distinct
           eq_refl eq_refl eq_refl).
Defined.

Lemma synchronising_twice_witness :
  state (updateAllPrefabInstance 1%N (state (updateAllPrefabInstance 1%N sample_registry)))
  = state (updateAllPrefabInstance 1%N sample_registry).
Proof.
  destruct enemy_loaded as (Hfile & Hparse & Hentity & Hwf & Hoc).
  exact (synchronising_twice 1%N sample_registry enemy_text enemy_value enemy_entity
           Hfile Hparse Hentity Hwf Hoc sample_types_distinct
           sample_properties_distinct (λ _ _ _, eq_refl)).
Defined.
End OnTheVariations.

Section OnTheSampleSession.
Import Cmd Cmd.CommandManager History Samples Variations.


Lemma sample_edits_valid : valid_history sample_edits sample_world.
Proof.
  split; [|split; [|exact I]].
  - intros handle data current [= <-] Hdata Hcurrent.
    vm_compute in Hdata. injection Hdata as <-. simpl in Hcurrent.
    injection Hcurrent as <-. reflexivity.
  - intros elements object current [= <-] _ Hobject Hcurrent.
    vm_compute in Hobject. injection Hobject as <-. vm_compute in Hcurrent.
    injection Hcurrent as <-. reflexivity.
Defined.


Lemma redo_all_restores_witness :
  let submitted := submit_all sample_edits empty_history sample_world in
  let undone := undo_times 2 submitted.1 submitted.2 in
  let redone := redo_times 2 undone.1 undone.2 in
  observably_equal redone.2 submitted.2
  ∧ redoStack redone.1 = []
  ∧ length (undoStack redone.1) = 2.
Proof.
  refine (redo_all_restores sample_edits empty_history sample_world _
            sample_edits_valid).
  intros c Hc created ->.
  repeat (apply elem_of_cons in Hc as [Hc|Hc]; [discriminate Hc|]).
  by apply elem_of_nil in Hc.
Defined.

Lemma transform_applies_stored_values_witness :
  registry (execute stale_move sample_world).2 !! 0%N ≫= transformComponent
  = Some {| position := vec one; rotation := vec 0%Z; scale := vec one |}
  ∧ registry (Cmd.undo stale_move sample_world).2 !! 0%N ≫= transformComponent
    = Some {| position := vec 0%Z; rotation := vec 0%Z; scale := vec one |}
  ∧ registry (Cmd.redo stale_move sample_world).2 !! 0%N ≫= transformComponent
    = Some {| position := vec one; rotation := vec 0%Z; scale := vec one |}.
Proof.
  refine (transform_applies_stored_values
            {| transform_m_entity := Some 0%N;
               m_oldPosition := vec 0%Z; m_oldRotation := vec 0%Z; m_oldScale := vec one;
               m_newPosition := vec one; m_newRotation := vec 0%Z; m_newScale := vec one |}
            sample_world 0%N
            {| uuidComponent := 1001%N;
               transformComponent :=
                 Some {| position := vec five; rotation := vec 0%Z; scale := vec one |} |}
            eq_refl eq_refl _).
  simpl. eauto.
Defined.

End OnTheSampleSession.
